(** * pandoc-wasm: the virtual filesystem bridge of [src/core.js]

    A shallow embedding of [createPandocInstance]'s [addFile], [convert],
    [toUint8Array] and [convertData], together with the platform
    operations they call ([TextEncoder.encode], [TextDecoder.decode] with
    [{fatal: true}], [String.prototype.endsWith]).

    Data model.
    - A JavaScript string is its sequence of UTF-16 code units, a [list Z]
      with every unit in [0, 0xFFFF].
    - A [Uint8Array] is a [list Z] with every element in [0, 0xFF].
    - A JavaScript object used as a dictionary ([files], [mediaFiles]) is a
      [gmap] from strings to values; [Map] ([fileSystem]) is a [gmap] from
      names to object references, and [Set] ([knownFiles]) is a [gset].
    - [File] objects are shared and mutated in place ([in_file.data = ...],
      the module writing through the WASI shim), so they live in a heap
      addressed by references. *)

From Stdlib Require Import ZArith List Lia Bool Ascii String.
From stdpp Require Import gmap list strings fin_maps.

Local Open Scope Z_scope.
#[local] Set Warnings "-register-all".

(** ** Strings and byte arrays *)

Abbreviation jsstring := (list Z).
Abbreviation bytes := (list Z).

(** An ASCII literal of the source as a JavaScript string. *)
Definition js (s : string) : jsstring :=
  map (fun a => Z.of_N (N_of_ascii a)) (list_ascii_of_string s).

(** [String.prototype.endsWith(searchString)] with the default end
    position: the substring of [s] that starts at
    [length s - length search] is compared with [search]. *)
Definition endsWith (s search : jsstring) : bool :=
  let start := Z.of_nat (length s) - Z.of_nat (length search) in
  if start <? 0 then false
  else bool_decide (drop (Z.to_nat start) s = search).

(** JavaScript truthiness of a string value: the empty string is falsy. *)
Definition truthy (s : jsstring) : bool :=
  match s with [] => false | _ :: _ => true end.

(** ** The encoding platform: TextEncoder and TextDecoder

    [core.js] only calls these; their behaviour is that of the WHATWG
    Encoding Standard (UTF-8 encoder and decoder, error mode fatal, the
    BOM not ignored) and of WebIDL's conversion of a string to a sequence
    of scalar values, which the definitions below follow step by step. *)

Module Encoding.

Definition is_high_surrogate (c : Z) : bool := (0xD800 <=? c) && (c <=? 0xDBFF).
Definition is_low_surrogate (c : Z) : bool := (0xDC00 <=? c) && (c <=? 0xDFFF).

(** WebIDL, "convert a string into a scalar value string": a surrogate
    pair becomes one supplementary code point, every unpaired surrogate
    becomes U+FFFD. *)
Fixpoint to_scalar_values (s : jsstring) : list Z :=
  match s with
  | [] => []
  | c :: s' =>
      if is_high_surrogate c then
        match s' with
        | [] => [0xFFFD]
        | d :: s'' =>
            if is_low_surrogate d
            then (0x10000 + Z.shiftl (Z.land c 0x3FF) 10 + Z.land d 0x3FF)
                   :: to_scalar_values s''
            else 0xFFFD :: to_scalar_values s'
        end
      else if is_low_surrogate c then 0xFFFD :: to_scalar_values s'
      else c :: to_scalar_values s'
  end.

(** UTF-8 encoder, the trailing bytes: while [count > 0], append
    [0x80 | ((cp >> (6 * (count - 1))) & 0x3F)]. *)
Fixpoint utf8_trail (cp : Z) (count : nat) : bytes :=
  match count with
  | O => []
  | S n => Z.lor 0x80 (Z.land (Z.shiftr cp (6 * Z.of_nat n)) 0x3F)
             :: utf8_trail cp n
  end.

(** UTF-8 encoder handler for one scalar value. *)
Definition utf8_encode_cp (cp : Z) : bytes :=
  if cp <=? 0x7F then [cp]
  else
    let '(count, offset) :=
      if cp <=? 0x7FF then (1%nat, 0xC0)
      else if cp <=? 0xFFFF then (2%nat, 0xE0)
      else (3%nat, 0xF0) in
    (Z.shiftr cp (6 * Z.of_nat count) + offset) :: utf8_trail cp count.

Definition utf8_encode (cps : list Z) : bytes :=
  flat_map utf8_encode_cp cps.

(** [new TextEncoder().encode(s)] *)
Definition TextEncoder_encode (s : jsstring) : bytes :=
  utf8_encode (to_scalar_values s).

(** The UTF-8 decoder's state. *)
Record decoder := {
  code_point : Z;
  bytes_seen : Z;
  bytes_needed : Z;
  lower_boundary : Z;
  upper_boundary : Z
}.

Definition decoder_init : decoder :=
  {| code_point := 0; bytes_seen := 0; bytes_needed := 0;
     lower_boundary := 0x80; upper_boundary := 0xBF |}.

Inductive handler_result :=
| Continue (d : decoder)
| CodePoint (cp : Z) (d : decoder)
| DecodeError.

Definition in_range (lo hi b : Z) : bool := (lo <=? b) && (b <=? hi).

(** The decoder's handler, given a byte (steps 3 to 10 of the standard). *)
Definition utf8_handler (d : decoder) (byte : Z) : handler_result :=
  if bytes_needed d =? 0 then
    if in_range 0x00 0x7F byte then CodePoint byte d
    else if in_range 0xC2 0xDF byte then
      Continue {| code_point := Z.land byte 0x1F; bytes_seen := bytes_seen d;
                  bytes_needed := 1;
                  lower_boundary := lower_boundary d;
                  upper_boundary := upper_boundary d |}
    else if in_range 0xE0 0xEF byte then
      Continue {| code_point := Z.land byte 0xF; bytes_seen := bytes_seen d;
                  bytes_needed := 2;
                  lower_boundary := if byte =? 0xE0 then 0xA0 else lower_boundary d;
                  upper_boundary := if byte =? 0xED then 0x9F else upper_boundary d |}
    else if in_range 0xF0 0xF4 byte then
      Continue {| code_point := Z.land byte 0x7; bytes_seen := bytes_seen d;
                  bytes_needed := 3;
                  lower_boundary := if byte =? 0xF0 then 0x90 else lower_boundary d;
                  upper_boundary := if byte =? 0xF4 then 0x8F else upper_boundary d |}
    else DecodeError
  else if negb (in_range (lower_boundary d) (upper_boundary d) byte) then DecodeError
  else
    let cp := Z.lor (Z.shiftl (code_point d) 6) (Z.land byte 0x3F) in
    let seen := bytes_seen d + 1 in
    if negb (seen =? bytes_needed d) then
      Continue {| code_point := cp; bytes_seen := seen;
                  bytes_needed := bytes_needed d;
                  lower_boundary := 0x80; upper_boundary := 0xBF |}
    else
      CodePoint cp {| code_point := 0; bytes_seen := 0; bytes_needed := 0;
                      lower_boundary := 0x80; upper_boundary := 0xBF |}.

(** Running the decoder over the whole input in error mode fatal: [None]
    is the [TypeError]; end of input inside a sequence ([bytes_needed]
    not 0) is an error too. *)
Fixpoint utf8_run (d : decoder) (input : bytes) : option (list Z) :=
  match input with
  | [] => if bytes_needed d =? 0 then Some [] else None
  | b :: rest =>
      match utf8_handler d b with
      | Continue d' => utf8_run d' rest
      | CodePoint cp d' => cons cp <$> utf8_run d' rest
      | DecodeError => None
      end
  end.

Definition utf8_decode (input : bytes) : option (list Z) :=
  utf8_run decoder_init input.

(** The decoder was made without [ignoreBOM]: a leading U+FEFF of the
    output is dropped. *)
Definition strip_bom (cps : list Z) : list Z :=
  match cps with
  | cp :: rest => if cp =? 0xFEFF then rest else cps
  | [] => []
  end.

(** A code point as UTF-16 code units. *)
Definition code_units (cp : Z) : jsstring :=
  if cp <=? 0xFFFF then [cp]
  else [ (cp - 0x10000) / 0x400 + 0xD800; (cp - 0x10000) mod 0x400 + 0xDC00 ].

Definition to_jsstring (cps : list Z) : jsstring := flat_map code_units cps.

(** [new TextDecoder("utf-8", {fatal: true}).decode(data)]; [None] is the
    thrown [TypeError]. *)
Definition TextDecoder_decode (data : bytes) : option jsstring :=
  (fun cps => to_jsstring (strip_bom cps)) <$> utf8_decode data.

(** [String.prototype.isWellFormed]: no unpaired surrogate. *)
Fixpoint isWellFormed (s : jsstring) : bool :=
  match s with
  | [] => true
  | c :: s' =>
      if is_high_surrogate c then
        match s' with
        | [] => false
        | d :: s'' => is_low_surrogate d && isWellFormed s''
        end
      else negb (is_low_surrogate c) && isWellFormed s'
  end.

(** Every element is a 16-bit code unit. *)
Definition code_unit_string (s : jsstring) : Prop :=
  Forall (fun c => 0 <= c <= 0xFFFF) s.

(** Every element is an octet. *)
Definition octets (b : bytes) : Prop :=
  Forall (fun x => 0 <= x <= 0xFF) b.

(** A Unicode scalar value: a code point that is not a surrogate. *)
Definition scalar_value (cp : Z) : Prop :=
  0 <= cp <= 0x10FFFF ∧ ¬ (0xD800 <= cp <= 0xDFFF).

(** A valid UTF-8 sequence, in the specification's sense: the encoding
    of some sequence of scalar values. *)
Definition valid_utf8 (data : bytes) : Prop :=
  ∃ cps, Forall scalar_value cps ∧ data = utf8_encode cps.

End Encoding.

(** ** Values, errors and the heap of File objects *)

(** A [Blob]: its bytes and its [type]. *)
Record Blob := { blob_data : bytes; blob_type : jsstring }.

(** [new Blob([data])]; [new Blob()] is [new_Blob []]. *)
Definition new_Blob (data : bytes) : Blob :=
  {| blob_data := data; blob_type := [] |}.

(** The values a caller can put in [files]: a string, a [Blob], or
    anything else. Of another value the code only ever touches its
    [arrayBuffer] method, so [VOther] records whether the value has one
    and the bytes of the buffer it resolves to (a fetch [Response] has
    one; a number, [null] or a [Uint8Array] has none). *)
Inductive jsvalue :=
| VString (s : jsstring)
| VBlob (b : Blob)
| VOther (arrayBuffer : option bytes).

Inductive JsError :=
| TypeError
| Error (message : string)
| RuntimeError.

(** The completion of a call: a value, or a thrown exception. *)
Inductive completion (A : Type) :=
| Return (a : A)
| Throw (e : JsError).
Arguments Return {A} a.
Arguments Throw {A} e.

#[global] Instance completion_ret : MRet completion := @Return.
#[global] Instance completion_bind : MBind completion :=
  fun A B f c => match c with Return a => f a | Throw e => Throw e end.

(** A [for] loop whose body can throw. *)
Fixpoint for_each {A S : Type} (body : S -> A -> completion S)
    (l : list A) (s : S) : completion S :=
  match l with
  | [] => Return s
  | x :: l' => s' ← body s x; for_each body l' s'
  end.

Abbreviation ref := positive.

(** An entry of the shim's directory: a [File] with its [data] and
    [readonly] flag, or an inode that has no [data] field. *)
Inductive Inode :=
| File (data : bytes) (readonly : bool)
| NoData.

(** The objects reachable through [fileSystem], and the [Map] itself. *)
Record Store := {
  heap : gmap ref Inode;
  fileSystem : gmap jsstring ref
}.

(** [inode.data], [None] when it is undefined. *)
Definition inode_data (i : Inode) : option bytes :=
  match i with File d _ => Some d | NoData => None end.

(** [r.data] for a reference [r]. *)
Definition data_of (st : Store) (r : ref) : option bytes :=
  heap st !! r ≫= inode_data.

(** [fileSystem.get(name)] followed by [.data]. *)
Definition get_data (st : Store) (name : jsstring) : option bytes :=
  fileSystem st !! name ≫= data_of st.

(** [new File(data, {readonly})] *)
Definition new_File (data : bytes) (readonly : bool) (st : Store) : ref * Store :=
  let r := fresh (dom (heap st)) in
  (r, {| heap := <[r := File data readonly]> (heap st);
         fileSystem := fileSystem st |}).

(** [fileSystem.set(name, file)] *)
Definition fileSystem_set (name : jsstring) (file : ref) (st : Store) : Store :=
  {| heap := heap st; fileSystem := <[name := file]> (fileSystem st) |}.

(** [file.data = d] *)
Definition set_data (file : ref) (d : bytes) (st : Store) : Store :=
  {| heap := alter (fun i => match i with
                             | File _ ro => File d ro
                             | NoData => File d false
                             end) file (heap st);
     fileSystem := fileSystem st |}.

(** JSON values: what [JSON.parse] returns and what [options] holds. A
    number is kept as the value [m * 10^e] of its literal; nothing here
    inspects it. *)
Inductive json :=
| JNull
| JBool (b : bool)
| JNumber (m e : Z)
| JString (s : jsstring)
| JArray (items : list json)
| JObject (members : list (jsstring * json)).

(** The [options] argument: the two keys the bridge reads, as the
    string they hold ([None] when the key is absent), and the rest. *)
Record Options := {
  output_file : option jsstring;
  extract_media : option jsstring;
  other_options : list (jsstring * json)
}.

(** [options[key] || null]: [None] is [null]. *)
Definition or_null (v : option jsstring) : option jsstring :=
  match v with
  | Some s => if truthy s then Some s else None
  | None => None
  end.

Record RunResult := {
  stdout : jsstring;
  stderr : jsstring;
  warnings : json;
  files : gmap jsstring jsvalue;
  mediaFiles : gmap jsstring jsvalue
}.

(** What [convert] holds in its local variables once the store is seeded. *)
Record Session := {
  store : Store;
  in_file : ref;
  out_file : ref;
  err_file : ref;
  warnings_file : ref;
  knownFiles : gset jsstring;
  outputFileName : option jsstring;
  extractMediaPath : option jsstring
}.

Definition with_store (s : Session) (st : Store) : Session :=
  {| store := st; in_file := in_file s; out_file := out_file s;
     err_file := err_file s; warnings_file := warnings_file s;
     knownFiles := knownFiles s; outputFileName := outputFileName s;
     extractMediaPath := extractMediaPath s |}.

Definition nonempty (d : bytes) : bool := 0 <? Z.of_nat (length d).

(** ** core.js *)

(** [addFile(filename, data, readonly)]: a string is encoded, anything
    else is assumed to be a [Blob] and asked for its [arrayBuffer()]. *)
Definition addFile (filename : jsstring) (data : jsvalue) (readonly : bool)
    (st : Store) : completion Store :=
  uint8Array ← match data with
               | VString s => Return (Encoding.TextEncoder_encode s)
               | VBlob b => Return (blob_data b)
               | VOther (Some buffer) => Return buffer
               | VOther None => Throw TypeError
               end;
  let '(file, st) := new_File uint8Array readonly st in
  Return (fileSystem_set filename file st).

(** [toUint8Array(inData)] *)
Definition toUint8Array (inData : jsvalue) : completion bytes :=
  match inData with
  | VString s => Return (Encoding.TextEncoder_encode s)
  | VBlob b => Return (blob_data b)
  | VOther _ =>
      Throw (Error "Unsupported type: inData must be a string or a Blob")
  end.

(** [convertData(data)] *)
Definition convertData (data : bytes) : jsvalue :=
  match Encoding.TextDecoder_decode data with
  | Some outData => VString outData
  | None => VBlob (new_Blob data)
  end.

(** [new TextDecoder("utf-8", {fatal: true}).decode(file.data)] *)
Definition decode_file (st : Store) (file : ref) : completion jsstring :=
  match Encoding.TextDecoder_decode (default [] (data_of st file)) with
  | Some text => Return text
  | None => Throw TypeError
  end.

(** *** [convert(options, stdin, files)] *)

Section Bridge.

(** The platform's [JSON.stringify] on [options] and [JSON.parse] ([None]
    is the thrown [SyntaxError]), and the module's exported [convert]:
    given the request bytes it reads and writes the store, or traps. *)
Variable JSON_stringify : Options -> jsstring.
Variable JSON_parse : jsstring -> option json.
Variable wasm_convert : bytes -> Store -> completion Store.

(** The four system paths of [knownFiles]'s initial value. *)
Definition system_paths : gset jsstring :=
  {[ js "stdin"; js "stdout"; js "stderr"; js "warnings" ]}.

(** One iteration of [for (const filename in files)]. *)
Definition add_input (acc : Store * gset jsstring)
    (entry : jsstring * jsvalue) : completion (Store * gset jsstring) :=
  let '(st, known) := acc in
  let '(filename, data) := entry in
  st ← addFile filename data true st;
  Return (st, known ∪ {[ filename ]}).

(** Lines 130-183: the store is cleared and seeded, [knownFiles],
    [outputFileName] and [extractMediaPath] are computed, stdin is set. *)
Definition seed (options : Options) (stdin : option jsstring)
    (files : gmap jsstring jsvalue) : completion Session :=
  let st := {| heap := ∅; fileSystem := ∅ |} in
  let '(in_file, st) := new_File [] true st in
  let '(out_file, st) := new_File [] false st in
  let '(err_file, st) := new_File [] false st in
  let '(warnings_file, st) := new_File [] false st in
  let st := fileSystem_set (js "stdin") in_file st in
  let st := fileSystem_set (js "stdout") out_file st in
  let st := fileSystem_set (js "stderr") err_file st in
  let st := fileSystem_set (js "warnings") warnings_file st in
  let knownFiles := system_paths in
  '(st, knownFiles) ← for_each add_input (map_to_list files) (st, knownFiles);
  let outputFileName := or_null (output_file options) in
  let extractMediaPath := or_null (extract_media options) in
  '(st, knownFiles) ←
    match outputFileName with
    | Some name =>
        st ← addFile name (VBlob (new_Blob [])) false st;
        Return (st, knownFiles ∪ {[ name ]})
    | None => Return (st, knownFiles)
    end;
  '(st, knownFiles) ←
    match extractMediaPath with
    | Some path =>
        st ← addFile path (VBlob (new_Blob [])) false st;
        if endsWith path (js ".zip")
        then Return (st, knownFiles ∪ {[ path ]})
        else Return (st, knownFiles)
    | None => Return (st, knownFiles)
    end;
  let st :=
    match or_null stdin with
    | Some text => set_data in_file (Encoding.TextEncoder_encode text) st
    | None => st
    end in
  Return {| store := st; in_file := in_file; out_file := out_file;
            err_file := err_file; warnings_file := warnings_file;
            knownFiles := knownFiles; outputFileName := outputFileName;
            extractMediaPath := extractMediaPath |}.

(** Line 186: [instance.exports.convert(opts_ptr, encoded.length)]. *)
Definition invoke (options : Options) (s : Session) : completion Session :=
  let encoded := Encoding.TextEncoder_encode (JSON_stringify options) in
  st ← wasm_convert encoded (store s);
  Return (with_store s st).

(** Lines 188-198 and 200-211: [files[key] = new Blob([file.data], ...)]
    when [key] is truthy and the store has non-empty data under it. *)
Definition collect (st : Store) (key : option jsstring) (type : jsstring)
    (files : gmap jsstring jsvalue) : gmap jsstring jsvalue :=
  match or_null key with
  | Some name =>
      match get_data st name with
      | Some d =>
          if nonempty d
          then <[ name := VBlob {| blob_data := d; blob_type := type |} ]> files
          else files
      | None => files
      end
  | None => files
  end.

(** One iteration of the loop of lines 216-230 over [fileSystem.entries()]. *)
Definition classify_entry (s : Session)
    (acc : gmap jsstring jsvalue * gmap jsstring jsvalue)
    (entry : jsstring * ref)
    : gmap jsstring jsvalue * gmap jsstring jsvalue :=
  let '(files, mediaFiles) := acc in
  let '(name, fileData) := entry in
  if negb (bool_decide (name ∈ knownFiles s)) then
    match data_of (store s) fileData with
    | Some d =>
        if nonempty d then
          let blob := VBlob (new_Blob d) in
          let files := <[ name := blob ]> files in
          if bool_decide (Some name ≠ outputFileName s)
             && bool_decide (Some name ≠ extractMediaPath s)
          then (files, <[ name := blob ]> mediaFiles)
          else (files, mediaFiles)
        else acc
    | None => acc
    end
  else acc.

Definition classify (s : Session) (files : gmap jsstring jsvalue)
    : gmap jsstring jsvalue * gmap jsstring jsvalue :=
  foldl (classify_entry s) (files, ∅) (map_to_list (fileSystem (store s))).

(** Lines 232-243: the warnings stream is decoded strictly, then parsed;
    a parse failure is caught and leaves [warnings] at [[]]. *)
Definition parse_warnings (s : Session) : completion json :=
  rawWarnings ← decode_file (store s) (warnings_file s);
  if truthy rawWarnings then
    match JSON_parse rawWarnings with
    | Some parsed => Return parsed
    | None => Return (JArray [])
    end
  else Return (JArray []).

(** Lines 188-256: everything after the module has returned. *)
Definition harvest (options : Options) (s : Session)
    (files : gmap jsstring jsvalue) : completion RunResult :=
  let files := collect (store s) (output_file options) [] files in
  let files := collect (store s) (extract_media options)
                 (js "application/zip") files in
  let '(files, mediaFiles) := classify s files in
  warnings ← parse_warnings s;
  out ← decode_file (store s) (out_file s);
  err ← decode_file (store s) (err_file s);
  Return {| stdout := out; stderr := err; warnings := warnings;
            files := files; mediaFiles := mediaFiles |}.

Definition convert (options : Options) (stdin : option jsstring)
    (files : gmap jsstring jsvalue) : completion RunResult :=
  s ← seed options stdin files;
  s ← invoke options s;
  harvest options s files.

(** The session as it stands when the module has returned. *)
Definition post_run (options : Options) (stdin : option jsstring)
    (files : gmap jsstring jsvalue) : completion Session :=
  s ← seed options stdin files;
  invoke options s.

End Bridge.

(** ** Specification-level notions *)

(** The KnownPathSet as the specification describes it: the four system
    paths, every caller-supplied input path, the declared output path and
    the extraction target when it ends in [.zip]. *)
Definition KnownPathSet (options : Options) (files : gmap jsstring jsvalue)
    : gset jsstring :=
  system_paths ∪ dom files
  ∪ (match or_null (output_file options) with
     | Some name => {[ name ]}
     | None => ∅
     end)
  ∪ (match or_null (extract_media options) with
     | Some path => if endsWith path (js ".zip") then {[ path ]} else ∅
     | None => ∅
     end).

(** The request with a falsy (empty) [output-file] or [extract-media]
    taken out. *)
Definition drop_empty_paths (options : Options) : Options :=
  {| output_file := or_null (output_file options);
     extract_media := or_null (extract_media options);
     other_options := other_options options |}.


(** The blob the classifier loop makes of an entry, when it takes it. *)
Definition new_blob (s : Session) (name : jsstring) (fileData : ref)
    : option jsvalue :=
  if bool_decide (name ∈ knownFiles s) then None
  else d ← data_of (store s) fileData;
       if nonempty d then Some (VBlob (new_Blob d)) else None.

Definition is_media (s : Session) (name : jsstring) : bool :=
  bool_decide (Some name ≠ outputFileName s)
  && bool_decide (Some name ≠ extractMediaPath s).


(** ** Scenarios

    Concrete requests and scripted modules, used below as instances of
    the general statements. *)

Module Scenario.

(** A module that performs a list of writes. A write to an existing
    entry changes its file's data in place; a write to a new name makes
    a new file. *)
Definition write (st : Store) (w : jsstring * bytes) : Store :=
  match fileSystem st !! w.1 with
  | Some file => set_data file w.2 st
  | None =>
      let '(file, st) := new_File w.2 false st in
      fileSystem_set w.1 file st
  end.

Definition scripted (writes : list (jsstring * bytes))
    : bytes -> Store -> completion Store :=
  fun _ st => Return (foldl write st writes).

(** Stand-ins for [JSON.stringify] and [JSON.parse]; the scripted
    modules do not read the request, and the only texts parsed are
    ["[]"] and text that is not JSON. *)
Definition stringify (options : Options) : jsstring := js "{}".

Definition parse (text : jsstring) : option json :=
  if bool_decide (text = js "[]") then Some (JArray []) else None.

Definition run := convert stringify parse.
Definition session := post_run stringify.

Definition returned {A} (default : A) (c : completion A) : A :=
  match c with Return a => a | Throw _ => default end.

Definition no_session : Session :=
  {| store := {| heap := ∅; fileSystem := ∅ |};
     in_file := 1%positive; out_file := 1%positive; err_file := 1%positive;
     warnings_file := 1%positive; knownFiles := ∅;
     outputFileName := None; extractMediaPath := None |}.

Definition no_result : RunResult :=
  {| stdout := []; stderr := []; warnings := JNull; files := ∅;
     mediaFiles := ∅ |}.

Definition no_options : Options :=
  {| output_file := None; extract_media := None; other_options := [] |}.

Definition png : bytes := [137; 80; 78; 71].

(** Media extracted into a directory: [extract-media] is ["media"], the
    module writes [media/img1.png] and the converted text. *)
Definition extract_options : Options :=
  {| output_file := None; extract_media := Some (js "media");
     other_options := [] |}.
Definition extract_files : gmap jsstring jsvalue :=
  {[ js "doc.md" := VString (js "![](img1.png)") ]}.
Definition extract_module :=
  scripted [ (js "media/img1.png", png); (js "stdout", js "<p>") ].
Definition extract_session : Session :=
  returned no_session (session extract_module extract_options None extract_files).
Definition extract_result : RunResult :=
  returned no_result (run extract_module extract_options None extract_files).


(** An output file: [output-file] is ["out.html"], the module writes it. *)
Definition output_options : Options :=
  {| output_file := Some (js "out.html"); extract_media := None;
     other_options := [] |}.
Definition output_module := scripted [ (js "out.html", js "hi") ].
Definition output_session : Session :=
  returned no_session (session output_module output_options (Some (js "hi")) ∅).
Definition output_result : RunResult :=
  returned no_result (run output_module output_options (Some (js "hi")) ∅).

(** Conversion to standard output: no options, the module writes
    [stdout]. *)
Definition stdout_module := scripted [ (js "stdout", js "<p>hi</p>") ].


(** A file value that is not a Blob but has [arrayBuffer()]. *)
Definition response_files : gmap jsstring jsvalue :=
  {[ js "a.bin" := VOther (Some [1; 2; 3]) ]}.

Definition response_session : Session :=
  returned no_session (session stdout_module no_options None response_files).
Definition response_result : RunResult :=
  returned no_result (run stdout_module no_options None response_files).

(** The three stages of the directory scenario, one by one. *)
Definition extract_seeded : Session :=
  returned no_session (seed extract_options None extract_files).

(** Text: "h", e acute, the euro sign and a surrogate pair. *)
Definition sample_text : jsstring := [0x68; 0xE9; 0x20AC; 0xD83D; 0xDE00].

(** Text that begins with U+FEFF. *)
Definition bom_text : jsstring := [0xFEFF; 0x68; 0x69].

End Scenario.

(** ** What the module is given *)

(** The bytes [addFile] stores for a value, when it accepts it. *)
Definition value_bytes (v : jsvalue) : option bytes :=
  match v with
  | VString text => Some (Encoding.TextEncoder_encode text)
  | VBlob blob => Some (blob_data blob)
  | VOther buffer => buffer
  end.

(** The store as the module sees it: each name with the inode it leads
    to. *)
Definition view (st : Store) : gmap jsstring Inode :=
  omap (fun file => heap st !! file) (fileSystem st).

(** The four system files as [convert] creates them; [stdin] holds the
    encoded stdin text when there is one. *)
Definition system_view (stdin : option jsstring) : gmap jsstring Inode :=
  {[ js "stdin" :=
       File (match or_null stdin with
             | Some text => Encoding.TextEncoder_encode text
             | None => []
             end) true;
     js "stdout" := File [] false;
     js "stderr" := File [] false;
     js "warnings" := File [] false ]}.

(** An empty writable placeholder under a declared path. *)
Definition placeholder (path : option jsstring) : gmap jsstring Inode :=
  match or_null path with
  | Some name => {[ name := File [] false ]}
  | None => ∅
  end.

(** The seeded store, name by name: the extraction placeholder hides
    the output placeholder, which hides the caller's read-only files,
    which hide the system files. *)
Definition seeded_view (options : Options) (stdin : option jsstring)
    (files : gmap jsstring jsvalue) : gmap jsstring Inode :=
  placeholder (extract_media options)
  ∪ placeholder (output_file options)
  ∪ omap (fun v => (fun d => File d true) <$> value_bytes v) files
  ∪ system_view stdin.

(** What seeding keeps true of the store while it adds files: every
    name leads to an allocated file, the store shows [m], the object
    [in_file] is untouched, and only [stdin] can lead to it, as long as
    [stdin] is not among the names [added] since. *)
Definition seeding_invariant (in_file : ref) (added : gset jsstring)
    (m : gmap jsstring Inode) (st : Store) : Prop :=
  (∀ name file, fileSystem st !! name = Some file -> file ∈ dom (heap st))
  ∧ view st = m
  ∧ heap st !! in_file = Some (File [] true)
  ∧ (∀ name, fileSystem st !! name = Some in_file ↔
             name = js "stdin" ∧ name ∉ added).

(** ** Marshalling into the instance memory *)

Module Marshal.

(** What [TextEncoder.encodeInto(source, destination)] returns, with the
    destination as it leaves it. *)
Record EncodeIntoResult := {
  destination : bytes;
  read : Z;
  written : Z
}.

(** The loop of [encodeInto] (Encoding Standard): a scalar value is
    written when its whole encoding fits in what is left of the
    destination, and the first one that does not fit ends the loop.
    [done] is the part of the destination written so far, [room] the
    rest of it. *)
Fixpoint encodeInto_loop (source : list Z) (done room : bytes) (read : Z)
    : EncodeIntoResult :=
  match source with
  | [] => {| destination := done ++ room; read := read;
             written := Z.of_nat (length done) |}
  | item :: source' =>
      let result := Encoding.utf8_encode_cp item in
      if Z.of_nat (length result) <=? Z.of_nat (length room) then
        encodeInto_loop source' (done ++ result) (drop (length result) room)
          (if 0xFFFF <? item then read + 2 else read + 1)
      else {| destination := done ++ room; read := read;
              written := Z.of_nat (length done) |}
  end.

Definition encodeInto (source : jsstring) (destination : bytes)
    : EncodeIntoResult :=
  encodeInto_loop (Encoding.to_scalar_values source) [] destination 0.

(** [core.js] 119-128 and 82-92: [encoded = new TextEncoder().encode(opts_str)],
    [opts_ptr = malloc(encoded.length)], and [encodeInto] on the view of
    [encoded.length] bytes at [opts_ptr]. [memory] is what the allocated
    region holds before; the result is what it holds after. *)
Definition write_request (opts_str : jsstring) (memory : bytes) : bytes :=
  let encoded := Encoding.TextEncoder_encode opts_str in
  destination (encodeInto opts_str (take (length encoded) memory))
  ++ drop (length encoded) memory.

(** [core.js] 45-54: [arg = malloc(args[i].length + 1)], [encodeInto] on
    the view of [args[i].length] bytes at [arg], then
    [setUint8(arg + args[i].length, 0)]. *)
Definition write_arg (arg : jsstring) (memory : bytes) : bytes :=
  let n := length arg in
  <[ n := 0 ]> (destination (encodeInto arg (take n memory)) ++ drop n memory).

(** The number of UTF-16 code units the scalar values came from. *)
Definition units (items : list Z) : Z :=
  foldr (fun item n => (if 0xFFFF <? item then 2 else 1) + n) 0 items.

End Marshal.

(** ** The legacy API: [pandoc(args_str, inData, resources)] *)

Module Legacy.

(** ECMAScript's WhiteSpace and LineTerminator code points: what
    [String.prototype.trim] strips and what [\s] matches. *)
Definition is_white_space (c : Z) : bool :=
  bool_decide (c ∈ [0x9; 0xA; 0xB; 0xC; 0xD; 0x20; 0xA0; 0x1680; 0x2028;
                    0x2029; 0x202F; 0x205F; 0x3000; 0xFEFF])
  || Encoding.in_range 0x2000 0x200A c.

Fixpoint trimStart (s : jsstring) : jsstring :=
  match s with
  | c :: s' => if is_white_space c then trimStart s' else s
  | [] => []
  end.

(** [String.prototype.trim] *)
Definition trim (s : jsstring) : jsstring :=
  reverse (trimStart (reverse (trimStart s))).

(** [s.split(/\s+/)]: the pieces of [s] between maximal runs of white
    space. [piece] is the piece being read, [in_run] says that the last
    code unit read was white space. A string that begins (or ends) with
    white space has an empty first (or last) piece, and the empty string
    has one empty piece. *)
Fixpoint split_loop (in_run : bool) (piece s : jsstring) : list jsstring :=
  match s with
  | [] => [piece]
  | c :: s' =>
      if is_white_space c then
        if in_run then split_loop true piece s'
        else piece :: split_loop true [] s'
      else split_loop false (piece ++ [c]) s'
  end.

Definition split_whitespace (s : jsstring) : list jsstring :=
  split_loop false [] s.

(** The values the argument loop stores in [options]. *)
Inductive property :=
| PString (s : jsstring)
| PTrue
| PUndefined.

(** [options] while it is built: its own properties in insertion
    order. *)
Abbreviation object := (list (jsstring * property)).

(** [options[key] = value] *)
Fixpoint set_property (key : jsstring) (value : property) (o : object) : object :=
  match o with
  | [] => [(key, value)]
  | (k, v) :: o' =>
      if bool_decide (k = key) then (k, value) :: o'
      else (k, v) :: set_property key value o'
  end.

(** [options[key]] *)
Fixpoint get_property (key : jsstring) (o : object) : property :=
  match o with
  | [] => PUndefined
  | (k, v) :: o' => if bool_decide (k = key) then v else get_property key o'
  end.

(** Lines 298-316, the [while] loop over [argParts], as a recursion on
    what is left of [argParts] from index [i]. [argParts[++i]] is the
    next part, [undefined] when there is none; the final [i++] then
    steps over it. *)
Fixpoint parse_args (argParts : list jsstring) (options : object) : object :=
  match argParts with
  | [] => options
  | arg :: rest =>
      let next := match rest with value :: _ => PString value
                                | [] => PUndefined end in
      let after := match rest with _ :: rest' => rest' | [] => rest end in
      if bool_decide (arg = js "-f") || bool_decide (arg = js "--from") then
        parse_args after (set_property (js "from") next options)
      else if bool_decide (arg = js "-t") || bool_decide (arg = js "--to") then
        parse_args after (set_property (js "to") next options)
      else if bool_decide (arg = js "-o")
              || bool_decide (arg = js "--output") then
        parse_args after (set_property (js "output-file") next options)
      else if bool_decide (arg = js "-s")
              || bool_decide (arg = js "--standalone") then
        parse_args rest (set_property (js "standalone") PTrue options)
      else if bool_decide (arg = js "--extract-media") then
        parse_args after (set_property (js "extract-media") next options)
      else if bool_decide (arg = js "--toc")
              || bool_decide (arg = js "--table-of-contents") then
        parse_args rest (set_property (js "table-of-contents") PTrue options)
      else parse_args rest options
  end.

(** The string a property holds, for the two keys [convert] reads. *)
Definition string_of (value : property) : option jsstring :=
  match value with PString s => Some s | _ => None end.

Definition json_of (value : property) : option json :=
  match value with
  | PString s => Some (JString s)
  | PTrue => Some (JBool true)
  | PUndefined => None
  end.

(** The object as [convert] takes it: the two paths, and the other
    properties that have a value, in order. *)
Definition to_Options (o : object) : Options :=
  {| output_file := string_of (get_property (js "output-file") o);
     extract_media := string_of (get_property (js "extract-media") o);
     other_options :=
       omap (fun '(k, v) =>
               if bool_decide (k = js "output-file")
                  || bool_decide (k = js "extract-media")
               then None
               else pair k <$> json_of v) o |}.

(** An element of [resources]. *)
Record Resource := { filename : jsstring; contents : jsvalue }.

(** What [pandoc] returns: [out], and [mediaFiles] as a [Map], of which
    the keys and their values are kept and the insertion order is
    not. *)
Record LegacyResult := {
  out : jsvalue;
  mediaFilesMap : gmap jsstring jsvalue
}.

(** [await value.arrayBuffer()] *)
Definition arrayBuffer (value : jsvalue) : completion bytes :=
  match value with
  | VBlob blob => Return (blob_data blob)
  | VOther (Some buffer) => Return buffer
  | VString _ | VOther None => Throw TypeError
  end.

(** Truthiness of a value of [result.files]: a string is truthy when
    it is not empty, an object always. *)
Definition truthy_value (value : jsvalue) : bool :=
  match value with
  | VString s => truthy s
  | VBlob _ | VOther _ => true
  end.

(** [new TextDecoder("utf-8").decode(data)]: the decoder of the
    Encoding Standard in error mode replacement. An error yields U+FFFD;
    when the offending byte is a wrong continuation byte it is read
    again, as the start of a sequence. *)
Fixpoint utf8_run_replacement (d : Encoding.decoder) (input : bytes)
    : list Z :=
  match input with
  | [] => if Encoding.bytes_needed d =? 0 then [] else [0xFFFD]
  | b :: rest =>
      match Encoding.utf8_handler d b with
      | Encoding.Continue d' => utf8_run_replacement d' rest
      | Encoding.CodePoint cp d' => cp :: utf8_run_replacement d' rest
      | Encoding.DecodeError =>
          if Encoding.bytes_needed d =? 0
          then 0xFFFD :: utf8_run_replacement Encoding.decoder_init rest
          else
            0xFFFD ::
            match Encoding.utf8_handler Encoding.decoder_init b with
            | Encoding.Continue d' => utf8_run_replacement d' rest
            | Encoding.CodePoint cp d' => cp :: utf8_run_replacement d' rest
            | Encoding.DecodeError =>
                0xFFFD :: utf8_run_replacement Encoding.decoder_init rest
            end
      end
  end.

(** Between sequences the decoder is in its initial state. *)
Definition clean (d : Encoding.decoder) : Prop :=
  Encoding.bytes_needed d = 0 -> d = Encoding.decoder_init.

Definition TextDecoder_decode_replacement (data : bytes) : jsstring :=
  Encoding.to_jsstring
    (Encoding.strip_bom (utf8_run_replacement Encoding.decoder_init data)).

(** Lines 294-316: the options object of a command line. *)
Definition options_of (args_str : jsstring) : Options :=
  to_Options (parse_args (split_whitespace (trim args_str)) []).

Section Pandoc.

Variable JSON_stringify : Options -> jsstring.
Variable JSON_parse : jsstring -> option json.
Variable wasm_convert : bytes -> Store -> completion Store.

(** Lines 319-328: one resource into [files]. *)
Definition add_resource (files : gmap jsstring jsvalue) (resource : Resource)
    : completion (gmap jsstring jsvalue) :=
  match contents resource with
  | VString text => Return (<[ filename resource := VString text ]> files)
  | other =>
      data ← toUint8Array other;
      Return (<[ filename resource := VBlob (new_Blob data) ]> files)
  end.

(** Lines 331-339: [inData] into [stdin]. [None] is an [inData] that is
    falsy and not a string ([null], [undefined], [0], [false]); a value
    [VBlob _] or [VOther _] is a truthy one. *)
Definition stdin_of (inData : option jsvalue) : completion (option jsstring) :=
  match inData with
  | None => Return None
  | Some (VString text) => Return (or_null (Some text))
  | Some other =>
      uint8Array ← toUint8Array other;
      Return (Some (TextDecoder_decode_replacement uint8Array))
  end.

(** Lines 345-351: one entry of [result.mediaFiles] into the [Map]. *)
Definition add_media (mediaFiles : gmap jsstring jsvalue)
    (entry : jsstring * jsvalue) : completion (gmap jsstring jsvalue) :=
  buffer ← arrayBuffer entry.2;
  Return (<[ entry.1 := convertData buffer ]> mediaFiles).

(** Lines 354-366: [out]. *)
Definition out_of (options : Options) (result : RunResult)
    : completion jsvalue :=
  match or_null (output_file options) with
  | Some name =>
      match files result !! name with
      | Some value =>
          if truthy_value value then
            buffer ← arrayBuffer value;
            Return (convertData buffer)
          else Return (VString (stdout result))
      | None => Return (VString (stdout result))
      end
  | None => Return (VString (stdout result))
  end.

(** Lines 292-372: [pandoc(args_str, inData, resources)], with
    [resources] always given ([[]] where the caller leaves it out). *)
Definition pandoc (args_str : jsstring) (inData : option jsvalue)
    (resources : list Resource) : completion LegacyResult :=
  let options := options_of args_str in
  files ← for_each add_resource resources ∅;
  stdin ← stdin_of inData;
  result ← convert JSON_stringify JSON_parse wasm_convert options stdin files;
  mediaFiles ← for_each add_media (map_to_list (mediaFiles result)) ∅;
  out ← out_of options result;
  Return {| out := out; mediaFilesMap := mediaFiles |}.

End Pandoc.

End Legacy.

(** ** Command lines, for stating what the legacy parser reads *)

Module CommandLine.

(** A token: not empty, no white space in it. *)
Definition token (t : jsstring) : Prop :=
  t ≠ [] ∧ Forall (fun c => Legacy.is_white_space c = false) t.

(** A run of white space, possibly empty. *)
Definition blank (s : jsstring) : Prop :=
  Forall (fun c => Legacy.is_white_space c = true) s.

(** A first token and more tokens, each after its separator. *)
Definition join (first : jsstring) (more : list (jsstring * jsstring))
    : jsstring :=
  first ++ flat_map (fun '(separator, t) => separator ++ t) more.

(** The eleven flags the argument loop knows. *)
Definition flags : list jsstring :=
  [js "-f"; js "--from"; js "-t"; js "--to"; js "-o"; js "--output";
   js "-s"; js "--standalone"; js "--extract-media"; js "--toc";
   js "--table-of-contents"].

(** What a command line is made of: a flag with its value, a flag
    alone, or any other token. [long] chooses the spelling of the
    flag. *)
Inductive setting :=
| From (long : bool) (value : jsstring)
| To (long : bool) (value : jsstring)
| Output (long : bool) (value : jsstring)
| Standalone (long : bool)
| ExtractMedia (value : jsstring)
| TableOfContents (long : bool)
| Unknown (t : jsstring).

Definition render (s : setting) : list jsstring :=
  match s with
  | From long value => [if long then js "--from" else js "-f"; value]
  | To long value => [if long then js "--to" else js "-t"; value]
  | Output long value => [if long then js "--output" else js "-o"; value]
  | Standalone long => [if long then js "--standalone" else js "-s"]
  | ExtractMedia value => [js "--extract-media"; value]
  | TableOfContents long =>
      [if long then js "--table-of-contents" else js "--toc"]
  | Unknown t => [t]
  end.

(** An unknown token is not one of the flags. *)
Definition well_formed (s : setting) : Prop :=
  match s with
  | Unknown t => t ∉ flags
  | _ => True
  end.

(** The key a setting is for, and the value it gives it. *)
Definition assignment (s : setting) : option (jsstring * Legacy.property) :=
  match s with
  | From _ value => Some (js "from", Legacy.PString value)
  | To _ value => Some (js "to", Legacy.PString value)
  | Output _ value => Some (js "output-file", Legacy.PString value)
  | Standalone _ => Some (js "standalone", Legacy.PTrue)
  | ExtractMedia value => Some (js "extract-media", Legacy.PString value)
  | TableOfContents _ => Some (js "table-of-contents", Legacy.PTrue)
  | Unknown _ => None
  end.

(** The value of the last setting for [key], [undefined] when there is
    none. *)
Definition value_for (key : jsstring) (settings : list setting)
    : Legacy.property :=
  foldl (fun current s =>
           match assignment s with
           | Some (k, value) => if bool_decide (k = key) then value else current
           | None => current
           end) Legacy.PUndefined settings.

End CommandLine.

(** ** [scripts/download-wasm.js]: [extractFromZip] *)

Module Zip.

(** What [extractFromZip] can throw: a [RangeError] of a read past the
    end of the buffer, its two errors, and what [zlib.inflateRawSync]
    throws. *)
Inductive error :=
| RangeError
| UnsupportedCompression (method : Z)
| NotFound (filename : jsstring)
| InflateError.

Inductive outcome :=
| Returned (data : bytes)
| Thrown (e : error).

(** [buf.slice(start, end)] for indices that are not negative, the only
    ones the function passes: an index past the end is the end, and an
    [end] before [start] gives the empty buffer. *)
Definition slice (buf : bytes) (start stop : Z) : bytes :=
  take (Z.to_nat (stop - start)) (drop (Z.to_nat start) buf).

(** [buf.readUInt16LE(offset)]; [None] is the [RangeError] of an offset
    with less than two bytes after it. *)
Definition readUInt16LE (buf : bytes) (offset : Z) : option Z :=
  match slice buf offset (offset + 2) with
  | [b0; b1] => Some (b0 + b1 * 2 ^ 8)
  | _ => None
  end.

(** [buf.readUInt32LE(offset)] *)
Definition readUInt32LE (buf : bytes) (offset : Z) : option Z :=
  match slice buf offset (offset + 4) with
  | [b0; b1; b2; b3] => Some (b0 + b1 * 2 ^ 8 + b2 * 2 ^ 16 + b3 * 2 ^ 24)
  | _ => None
  end.

(** [Buffer.from([0x50, 0x4b, 0x03, 0x04])] *)
Definition signature : bytes := [0x50; 0x4b; 0x03; 0x04].

(** [name === filename || name.endsWith("/" + filename)] *)
Definition selects (filename name : jsstring) : bool :=
  bool_decide (name = filename) || endsWith name (js "/" ++ filename).

(** Lines 133-143: what is done with the data of the entry found. *)
Definition extract (inflateRawSync : bytes -> option bytes)
    (compressionMethod : Z) (data : bytes) : outcome :=
  if compressionMethod =? 0 then Returned data
  else if compressionMethod =? 8 then
    match inflateRawSync data with
    | Some inflated => Returned inflated
    | None => Thrown InflateError
    end
  else Thrown (UnsupportedCompression compressionMethod).

Section Extract.

(** The platform's [buf.toString("utf8")] and [zlib.inflateRawSync]
    ([None] when it throws). *)
Variable toString_utf8 : bytes -> jsstring.
Variable inflateRawSync : bytes -> option bytes.

(** The [while] loop of lines 117-150, from [offset] on. Every turn
    moves [offset] forward, so the length of the buffer bounds the
    number of turns; [None] is a loop that was given too few. *)
Fixpoint scan (turns : nat) (zipBuffer : bytes) (filename : jsstring)
    (offset : Z) : option outcome :=
  match turns with
  | O => None
  | S turns' =>
      if offset <? Z.of_nat (length zipBuffer) - 30 then
        if bool_decide (slice zipBuffer offset (offset + 4) = signature) then
          match readUInt16LE zipBuffer (offset + 26),
                readUInt16LE zipBuffer (offset + 28),
                readUInt16LE zipBuffer (offset + 8),
                readUInt32LE zipBuffer (offset + 18) with
          | Some filenameLength, Some extraFieldLength,
            Some compressionMethod, Some compressedSize =>
              let nameStart := offset + 30 in
              let nameEnd := nameStart + filenameLength in
              let name := toString_utf8 (slice zipBuffer nameStart nameEnd) in
              if selects filename name then
                let dataStart := nameEnd + extraFieldLength in
                let dataEnd := dataStart + compressedSize in
                let data := slice zipBuffer dataStart dataEnd in
                Some (extract inflateRawSync compressionMethod data)
              else
                scan turns' zipBuffer filename
                  (nameEnd + extraFieldLength + compressedSize)
          | _, _, _, _ => Some (Thrown RangeError)
          end
        else scan turns' zipBuffer filename (offset + 1)
      else Some (Thrown (NotFound filename))
  end.

Definition extractFromZip (zipBuffer : bytes) (filename : jsstring)
    : option outcome :=
  scan (S (length zipBuffer)) zipBuffer filename 0.

End Extract.

(** *** Archives, for stating what is extracted *)

(** A local file entry of a ZIP archive: the fields of its header, its
    name, its extra field and its data as stored. *)
Record entry := {
  version : Z;
  flags : Z;
  method : Z;
  time : Z;
  date : Z;
  crc32 : Z;
  uncompressed_size : Z;
  name : bytes;
  extra : bytes;
  payload : bytes
}.

Definition le16 (n : Z) : bytes := [n mod 256; n / 256].

Definition le32 (n : Z) : bytes :=
  [n mod 256; n / 256 mod 256; n / 65536 mod 256; n / 16777216].

(** The entry as it lies in the archive: the 30 bytes of the local file
    header, then name, extra field and data. *)
Definition local_file (e : entry) : bytes :=
  signature ++ le16 (version e) ++ le16 (flags e) ++ le16 (method e)
  ++ le16 (time e) ++ le16 (date e) ++ le32 (crc32 e)
  ++ le32 (Z.of_nat (length (payload e))) ++ le32 (uncompressed_size e)
  ++ le16 (Z.of_nat (length (name e))) ++ le16 (Z.of_nat (length (extra e)))
  ++ name e ++ extra e ++ payload e.

(** The fields the function reads fit their width, and the entry has a
    name. *)
Definition well_formed (e : entry) : Prop :=
  0 <= method e < 2 ^ 16
  ∧ Z.of_nat (length (name e)) < 2 ^ 16
  ∧ Z.of_nat (length (extra e)) < 2 ^ 16
  ∧ Z.of_nat (length (payload e)) < 2 ^ 32
  ∧ name e ≠ [].

(** No local file header signature anywhere in [buf]. *)
Definition no_signature (buf : bytes) : Prop :=
  ∀ i, (i <= length buf)%nat -> take 4 (drop i buf) ≠ signature.

End Zip.

(** ** More scenarios *)

Module Examples.

(** A module that writes a byte that is not UTF-8 to [stdout]. *)
Definition broken_module := Scenario.scripted [ (js "stdout", [0xFF]) ].
Definition broken_session : Session :=
  Scenario.returned Scenario.no_session
    (Scenario.session broken_module Scenario.no_options None ∅).

(** Twelve bytes of instance memory. *)
Definition memory : bytes := replicate 12 0xAA.

(** A command line with white space of several kinds around its four
    tokens. *)
Definition more_tokens : list (jsstring * jsstring) :=
  [ ([0x20], js "markdown"); ([0x9; 0x20], js "-o"); ([0xA0], js "out.html") ].
Definition spaced_line : jsstring :=
  [0x20; 0x20] ++ CommandLine.join (js "-f") more_tokens ++ [0xA].

(** A command line that names two outputs, with a token in between that
    is no flag. *)
Definition settings : list CommandLine.setting :=
  [ CommandLine.Output false (js "a.html");
    CommandLine.Unknown (js "--extract-media=media");
    CommandLine.Standalone true;
    CommandLine.Output true (js "b.html") ].

(** The legacy call on the directory scenario. *)
Definition no_legacy_result : Legacy.LegacyResult :=
  {| Legacy.out := VString []; Legacy.mediaFilesMap := ∅ |}.

Definition legacy := Legacy.pandoc Scenario.stringify Scenario.parse.

Definition extract_line : jsstring := js "-f markdown --extract-media media".
Definition extract_input : option jsvalue := Some (VString (js "![](img1.png)")).
Definition extract_session : Session :=
  Scenario.returned Scenario.no_session
    (Scenario.session Scenario.extract_module (Legacy.options_of extract_line)
       (Some (js "![](img1.png)")) ∅).
Definition extract_result : Legacy.LegacyResult :=
  Scenario.returned no_legacy_result
    (legacy Scenario.extract_module extract_line extract_input []).

(** The legacy call with an output file that the module writes. *)
Definition output_line : jsstring := js "-o out.html".
Definition output_session : Session :=
  Scenario.returned Scenario.no_session
    (Scenario.session Scenario.output_module (Legacy.options_of output_line)
       (Some (js "hi")) ∅).
Definition output_result : RunResult :=
  Scenario.returned Scenario.no_result
    (Scenario.run Scenario.output_module (Legacy.options_of output_line)
       (Some (js "hi")) ∅).

(** The same command line with a module that writes [stdout] only, and
    a resource under the name of the output. *)
Definition resources : list Legacy.Resource :=
  [ {| Legacy.filename := js "out.html"; Legacy.contents := VString [0x78] |} ].

(** The legacy call with no output file. *)
Definition plain_line : jsstring := js "-f markdown".
Definition plain_session : Session :=
  Scenario.returned Scenario.no_session
    (Scenario.session Scenario.stdout_module (Legacy.options_of plain_line)
       (Some (js "hi")) ∅).
Definition plain_result : RunResult :=
  Scenario.returned Scenario.no_result
    (Scenario.run Scenario.stdout_module (Legacy.options_of plain_line)
       (Some (js "hi")) ∅).

(** An archive: a stored [README], then [bin/pandoc.wasm] stored, then
    the start of a central directory. *)
Definition toString_utf8 (data : bytes) : jsstring :=
  Encoding.to_jsstring
    (Legacy.utf8_run_replacement Encoding.decoder_init data).
Definition inflateRawSync (data : bytes) : option bytes := None.

Definition readme : Zip.entry :=
  {| Zip.version := 20; Zip.flags := 0; Zip.method := 0; Zip.time := 0;
     Zip.date := 0; Zip.crc32 := 0; Zip.uncompressed_size := 2;
     Zip.name := js "README"; Zip.extra := []; Zip.payload := js "hi" |}.
Definition wasm : Zip.entry :=
  {| Zip.version := 20; Zip.flags := 0; Zip.method := 0; Zip.time := 0;
     Zip.date := 0; Zip.crc32 := 0; Zip.uncompressed_size := 4;
     Zip.name := js "bin/pandoc.wasm"; Zip.extra := [1; 2];
     Zip.payload := [0; 0x61; 0x73; 0x6D] |}.
Definition central_directory : bytes := [0x50; 0x4b; 0x01; 0x02; 0; 0].

End Examples.

(** * Facts

    ** The encoder and the decoder *)

Module EncodingFacts.
Import Encoding.

Lemma land_mask a n : 0 <= n -> Z.land a (Z.ones n) = a mod 2 ^ n.
Proof. apply Z.land_ones. Qed.

Lemma lor_disjoint a b n :
  0 <= n -> 0 <= b < 2 ^ n -> Z.lor (a * 2 ^ n) b = a * 2 ^ n + b.
Proof.
  intros Hn Hb.
  assert (Z.land (a * 2 ^ n) b = 0) as Hland.
  { apply Z.bits_inj'. intros m Hm. rewrite Z.land_spec, Z.bits_0.
    destruct (Z.lt_ge_cases m n) as [Hlt|Hge].
    - by rewrite Z.mul_pow2_bits_low.
    - rewrite <- (Z.mod_small b (2 ^ n)) by lia.
      rewrite Z.mod_pow2_bits_high by lia. apply andb_false_r. }
  rewrite <- Z.lxor_lor by done. symmetry. by apply Z.add_nocarry_lxor.
Qed.

Lemma land_3F b : Z.land b 0x3F = b mod 64.
Proof. apply (land_mask b 6). lia. Qed.
Lemma land_1F b : Z.land b 0x1F = b mod 32.
Proof. apply (land_mask b 5). lia. Qed.
Lemma land_0F b : Z.land b 0xF = b mod 16.
Proof. apply (land_mask b 4). lia. Qed.
Lemma land_07 b : Z.land b 0x7 = b mod 8.
Proof. apply (land_mask b 3). lia. Qed.
Lemma land_3FF b : Z.land b 0x3FF = b mod 1024.
Proof. apply (land_mask b 10). lia. Qed.

Lemma shift_in cp b : Z.lor (Z.shiftl cp 6) (Z.land b 0x3F) = cp * 64 + b mod 64.
Proof.
  rewrite land_3F, Z.shiftl_mul_pow2 by lia.
  apply (lor_disjoint cp (b mod 64) 6); [lia|]. apply Z.mod_pos_bound. lia.
Qed.

Lemma trail_byte x : Z.lor 0x80 (Z.land x 0x3F) = 128 + x mod 64.
Proof.
  rewrite land_3F. apply (lor_disjoint 2 (x mod 64) 6); [lia|].
  apply Z.mod_pos_bound. lia.
Qed.

Lemma utf8_encode_cp_eq cp :
  utf8_encode_cp cp =
    if cp <=? 0x7F then [cp]
    else if cp <=? 0x7FF then [cp / 64 + 192; 128 + cp mod 64]
    else if cp <=? 0xFFFF then [cp / 4096 + 224; 128 + (cp / 64) mod 64; 128 + cp mod 64]
    else [cp / 262144 + 240; 128 + (cp / 4096) mod 64; 128 + (cp / 64) mod 64; 128 + cp mod 64].
Proof.
  unfold utf8_encode_cp.
  destruct (cp <=? 0x7F); [done|].
  destruct (cp <=? 0x7FF); [|destruct (cp <=? 0xFFFF)]; cbn [utf8_trail];
    rewrite !trail_byte, !Z.shiftr_div_pow2 by lia; simpl Z.mul;
    try rewrite Z.shiftr_0_r; try rewrite Z.div_1_r; reflexivity.
Qed.

Ltac zlia := Z.div_mod_to_equations; lia.

Ltac split_tests :=
  repeat match goal with
         | |- context [?a <=? ?b] => destruct (Z.leb_spec a b); try lia
         | |- context [?a =? ?b] => destruct (Z.eqb_spec a b); try lia
         end.

Lemma handler_trail d b :
  bytes_needed d ≠ 0 ->
  utf8_handler d b =
    if in_range (lower_boundary d) (upper_boundary d) b then
      if bytes_seen d + 1 =? bytes_needed d
      then CodePoint (code_point d * 64 + b mod 64) decoder_init
      else Continue {| code_point := code_point d * 64 + b mod 64;
                       bytes_seen := bytes_seen d + 1;
                       bytes_needed := bytes_needed d;
                       lower_boundary := 0x80; upper_boundary := 0xBF |}
    else DecodeError.
Proof.
  intros Hn. unfold utf8_handler. rewrite shift_in.
  destruct (Z.eqb_spec (bytes_needed d) 0); [done|].
  destruct (in_range _ _ b); simpl; [|done].
  by destruct (bytes_seen d + 1 =? bytes_needed d).
Qed.

Lemma handler_lead b :
  utf8_handler decoder_init b =
    if in_range 0x00 0x7F b then CodePoint b decoder_init
    else if in_range 0xC2 0xDF b then
      Continue {| code_point := b mod 32; bytes_seen := 0; bytes_needed := 1;
                  lower_boundary := 0x80; upper_boundary := 0xBF |}
    else if in_range 0xE0 0xEF b then
      Continue {| code_point := b mod 16; bytes_seen := 0; bytes_needed := 2;
                  lower_boundary := if b =? 0xE0 then 0xA0 else 0x80;
                  upper_boundary := if b =? 0xED then 0x9F else 0xBF |}
    else if in_range 0xF0 0xF4 b then
      Continue {| code_point := b mod 8; bytes_seen := 0; bytes_needed := 3;
                  lower_boundary := if b =? 0xF0 then 0x90 else 0x80;
                  upper_boundary := if b =? 0xF4 then 0x8F else 0xBF |}
    else DecodeError.
Proof.
  unfold utf8_handler. simpl. by rewrite land_1F, land_0F, land_07.
Qed.

Lemma in_range_true lo hi b : lo <= b <= hi -> in_range lo hi b = true.
Proof. unfold in_range. intros. apply andb_true_intro. split; lia. Qed.

Lemma in_range_false lo hi b : ¬ (lo <= b <= hi) -> in_range lo hi b = false.
Proof.
  unfold in_range. intros.
  destruct (Z.leb_spec lo b), (Z.leb_spec b hi); simpl; try done; lia.
Qed.

Lemma in_range_spec lo hi b : reflect (lo <= b <= hi) (in_range lo hi b).
Proof.
  destruct (in_range lo hi b) eqn:H; constructor.
  - unfold in_range in H. apply andb_prop in H. lia.
  - intros Hr. by rewrite in_range_true in H.
Qed.

(** One continuation byte that the decoder accepts. *)
Ltac trail_step :=
  rewrite handler_trail by (cbn; lia);
  cbn [lower_boundary upper_boundary bytes_seen bytes_needed code_point];
  rewrite in_range_true by (split_tests; zlia);
  first [ rewrite (proj2 (Z.eqb_eq _ _)) by lia
        | rewrite (proj2 (Z.eqb_neq _ _)) by lia ];
  cbn [utf8_run].

(** The decoder reads back the encoding of one scalar value. *)
Lemma utf8_run_encode_cp cp rest :
  scalar_value cp ->
  utf8_run decoder_init (utf8_encode_cp cp ++ rest)
  = cons cp <$> utf8_run decoder_init rest.
Proof.
  intros [Hcp Hsur]. rewrite utf8_encode_cp_eq.
  destruct (Z.leb_spec cp 0x7F); [|destruct (Z.leb_spec cp 0x7FF);
    [|destruct (Z.leb_spec cp 0xFFFF)]]; cbn [app utf8_run]; rewrite handler_lead.
  - by rewrite in_range_true by lia.
  - rewrite (in_range_false 0 0x7F), (in_range_true 0xC2 0xDF) by zlia.
    trail_step.
    replace ((cp / 64 + 192) mod 32 * 64 + (128 + cp mod 64) mod 64)
      with cp by zlia.
    done.
  - rewrite (in_range_false 0 0x7F), (in_range_false 0xC2 0xDF),
      (in_range_true 0xE0 0xEF) by zlia.
    do 2 trail_step.
    replace (((cp / 4096 + 224) mod 16 * 64 + (128 + cp / 64 mod 64) mod 64) * 64
             + (128 + cp mod 64) mod 64) with cp by zlia.
    done.
  - rewrite (in_range_false 0 0x7F), (in_range_false 0xC2 0xDF),
      (in_range_false 0xE0 0xEF), (in_range_true 0xF0 0xF4) by zlia.
    do 3 trail_step.
    replace ((((cp / 262144 + 240) mod 8 * 64 + (128 + cp / 4096 mod 64) mod 64) * 64
              + (128 + cp / 64 mod 64) mod 64) * 64
             + (128 + cp mod 64) mod 64) with cp by zlia.
    done.
Qed.

Lemma utf8_decode_encode cps :
  Forall scalar_value cps -> utf8_decode (utf8_encode cps) = Some cps.
Proof.
  unfold utf8_decode, utf8_encode. induction 1 as [|cp cps Hcp _ IH]; [done|].
  cbn [flat_map]. rewrite utf8_run_encode_cp by done. by rewrite IH.
Qed.

Lemma list_pair_ind {A} (P : list A -> Prop) :
  P [] -> (∀ x, P [x]) -> (∀ x y l, P l -> P (y :: l) -> P (x :: y :: l)) ->
  ∀ l, P l.
Proof.
  intros Hnil Hone Hstep l.
  assert (P l ∧ ∀ x, P (x :: l)) as [H _]; [|done].
  induction l as [|y l [IH1 IH2]]; [by split|].
  split; [apply IH2|]. intros x. by apply Hstep.
Qed.

Lemma surrogate_spec c :
  (is_high_surrogate c = true ↔ 0xD800 <= c <= 0xDBFF)
  ∧ (is_low_surrogate c = true ↔ 0xDC00 <= c <= 0xDFFF).
Proof.
  unfold is_high_surrogate, is_low_surrogate.
  rewrite !andb_true_iff, !Z.leb_le. tauto.
Qed.

Lemma pair_value c d :
  0x10000 + Z.shiftl (Z.land c 0x3FF) 10 + Z.land d 0x3FF
  = 0x10000 + c mod 1024 * 1024 + d mod 1024.
Proof. by rewrite !land_3FF, Z.shiftl_mul_pow2 by lia. Qed.

Ltac split_surrogates :=
  repeat match goal with
         | |- context [is_high_surrogate ?c] =>
             let H := fresh "Hhigh" in
             destruct (is_high_surrogate c) eqn:H;
             [apply (proj1 (surrogate_spec c)) in H
             |apply not_true_iff_false in H;
              rewrite (proj1 (surrogate_spec c)) in H]
         | |- context [is_low_surrogate ?c] =>
             let H := fresh "Hlow" in
             destruct (is_low_surrogate c) eqn:H;
             [apply (proj2 (surrogate_spec c)) in H
             |apply not_true_iff_false in H;
              rewrite (proj2 (surrogate_spec c)) in H]
         end.

Lemma to_scalar_values_pair c d s :
  to_scalar_values (c :: d :: s) =
    if is_high_surrogate c then
      if is_low_surrogate d
      then (0x10000 + c mod 1024 * 1024 + d mod 1024) :: to_scalar_values s
      else 0xFFFD :: to_scalar_values (d :: s)
    else if is_low_surrogate c then 0xFFFD :: to_scalar_values (d :: s)
    else c :: to_scalar_values (d :: s).
Proof. by rewrite <- pair_value. Qed.

Lemma isWellFormed_pair c d s :
  isWellFormed (c :: d :: s) =
    if is_high_surrogate c then is_low_surrogate d && isWellFormed s
    else negb (is_low_surrogate c) && isWellFormed (d :: s).
Proof. done. Qed.

(** The encoder's input conversion yields scalar values only. *)
Lemma to_scalar_values_scalar s :
  code_unit_string s -> Forall scalar_value (to_scalar_values s).
Proof.
  unfold code_unit_string, scalar_value.
  induction s as [|c|c d s IH1 IH2] using list_pair_ind; intros Hs.
  - constructor.
  - apply Forall_cons in Hs as [Hc _]. cbn.
    split_surrogates; repeat constructor; lia.
  - apply Forall_cons in Hs as [Hc Hs]. pose proof Hs as Hds.
    apply Forall_cons in Hs as [Hd Hs].
    rewrite to_scalar_values_pair.
    split_surrogates;
      (constructor; [zlia | first [by apply IH1 | by apply IH2]]).
Qed.

(** On a well-formed string the conversion loses nothing. *)
Lemma to_jsstring_scalar_values s :
  code_unit_string s -> isWellFormed s = true ->
  to_jsstring (to_scalar_values s) = s.
Proof.
  unfold code_unit_string, to_jsstring.
  induction s as [|c|c d s IH1 IH2] using list_pair_ind; intros Hs Hwf.
  - done.
  - apply Forall_cons in Hs as [Hc _]. cbn in *. revert Hwf.
    split_surrogates; cbn; try done. intros _. unfold code_units.
    by rewrite (proj2 (Z.leb_le _ _)) by lia.
  - apply Forall_cons in Hs as [Hc Hs]. pose proof Hs as Hds.
    apply Forall_cons in Hs as [Hd Hs].
    revert Hwf. rewrite to_scalar_values_pair, isWellFormed_pair.
    split_surrogates; cbn [andb negb flat_map]; try done; intros Hwf.
    + rewrite IH1 by done. unfold code_units.
      rewrite (proj2 (Z.leb_gt _ _)) by zlia. cbn [app].
      f_equal; [|f_equal]; zlia.
    + rewrite IH2 by done. unfold code_units.
      by rewrite (proj2 (Z.leb_le _ _)) by lia.
Qed.

Lemma strip_bom_to_jsstring cps :
  Forall scalar_value cps ->
  to_jsstring (strip_bom cps) = strip_bom (to_jsstring cps).
Proof.
  unfold to_jsstring. intros Hcps.
  destruct Hcps as [|cp cps [Hcp Hsur] _]; [done|].
  cbn [strip_bom flat_map].
  destruct (Z.eqb_spec cp 0xFEFF) as [->|Hne]; [done|].
  cbn [flat_map]. unfold code_units.
  destruct (Z.leb_spec cp 0xFFFF); cbn [app strip_bom];
    by rewrite (proj2 (Z.eqb_neq _ _)) by zlia.
Qed.

(** Decoding the encoding of a well-formed string gives the string back,
    less a leading U+FEFF. *)
Lemma decode_encode s :
  code_unit_string s -> isWellFormed s = true ->
  TextDecoder_decode (TextEncoder_encode s) = Some (strip_bom s).
Proof.
  intros Hs Hwf. unfold TextDecoder_decode, TextEncoder_encode.
  rewrite utf8_decode_encode by by apply to_scalar_values_scalar.
  cbn. rewrite strip_bom_to_jsstring by by apply to_scalar_values_scalar.
  by rewrite to_jsstring_scalar_values.
Qed.

Lemma utf8_encode_cp_nonempty cp : utf8_encode_cp cp ≠ [].
Proof. rewrite utf8_encode_cp_eq. by repeat case_match. Qed.

(** A continuation byte read from a hypothesis. *)
Ltac trail_inv H b rest :=
  destruct rest as [|b rest]; [cbn in H; discriminate H|];
  cbn [utf8_run] in H;
  rewrite handler_trail in H by (cbn; lia);
  cbn [lower_boundary upper_boundary bytes_seen bytes_needed code_point] in H;
  let Hb := fresh "Hb" in
  match type of H with
  | context [in_range ?lo ?hi b] => destruct (in_range_spec lo hi b) as [Hb|_]
  end;
  [|discriminate H];
  first [ rewrite (proj2 (Z.eqb_eq _ _)) in H by lia
        | rewrite (proj2 (Z.eqb_neq _ _)) in H by lia ].

(** What the decoder reads first is the encoding of a scalar value. *)
Lemma utf8_run_step b rest cps :
  utf8_run decoder_init (b :: rest) = Some cps ->
  ∃ cp rest' cps',
    scalar_value cp ∧ b :: rest = utf8_encode_cp cp ++ rest'
    ∧ cps = cp :: cps' ∧ utf8_run decoder_init rest' = Some cps'.
Proof.
  cbn [utf8_run]. rewrite handler_lead. unfold scalar_value.
  destruct (in_range_spec 0 0x7F b) as [H1|H1].
  { intros H. destruct (utf8_run decoder_init rest) as [cps'|] eqn:Hrest;
      [|discriminate]. injection H as <-.
    exists b, rest, cps'. rewrite utf8_encode_cp_eq.
    rewrite (proj2 (Z.leb_le _ _)) by lia. repeat split; try done; lia. }
  destruct (in_range_spec 0xC2 0xDF b) as [H2|H2].
  { intros H. trail_inv H b2 rest.
    destruct (utf8_run decoder_init rest) as [cps'|] eqn:Hrest;
      [|discriminate]. injection H as <-.
    exists (b mod 32 * 64 + b2 mod 64), rest, cps'. rewrite utf8_encode_cp_eq.
    rewrite (proj2 (Z.leb_gt _ _)), (proj2 (Z.leb_le _ _)) by zlia.
    repeat split; try done; try zlia. cbn [app]. repeat f_equal; zlia. }
  destruct (in_range_spec 0xE0 0xEF b) as [H3|H3].
  { intros H. trail_inv H b2 rest. trail_inv H b3 rest.
    destruct (utf8_run decoder_init rest) as [cps'|] eqn:Hrest;
      [|discriminate]. injection H as <-.
    exists ((b mod 16 * 64 + b2 mod 64) * 64 + b3 mod 64), rest, cps'.
    rewrite utf8_encode_cp_eq.
    revert Hb. destruct (Z.eqb_spec b 0xE0), (Z.eqb_spec b 0xED); intros Hb;
      try lia;
      rewrite !(proj2 (Z.leb_gt _ _)), (proj2 (Z.leb_le _ _)) by zlia;
      (repeat split; try done; try zlia; cbn [app]; repeat f_equal; zlia). }
  destruct (in_range_spec 0xF0 0xF4 b) as [H4|H4]; [|done].
  intros H. trail_inv H b2 rest. trail_inv H b3 rest. trail_inv H b4 rest.
  destruct (utf8_run decoder_init rest) as [cps'|] eqn:Hrest;
    [|discriminate]. injection H as <-.
  exists (((b mod 8 * 64 + b2 mod 64) * 64 + b3 mod 64) * 64 + b4 mod 64),
    rest, cps'.
  rewrite utf8_encode_cp_eq.
  revert Hb. destruct (Z.eqb_spec b 0xF0), (Z.eqb_spec b 0xF4); intros Hb;
    try lia;
    rewrite !(proj2 (Z.leb_gt _ _)) by zlia;
    (repeat split; try done; try zlia; cbn [app]; repeat f_equal; zlia).
Qed.

(** Whatever the decoder accepts is the encoding of what it returns. *)
Lemma utf8_decode_sound data cps :
  utf8_decode data = Some cps ->
  Forall scalar_value cps ∧ data = utf8_encode cps.
Proof.
  unfold utf8_decode. remember (length data) as n eqn:Hn.
  revert data cps Hn. induction n as [n IH] using lt_wf_ind.
  intros [|b rest] cps Hn H.
  - cbn in H. injection H as <-. by split.
  - apply utf8_run_step in H
      as (cp & rest' & cps' & Hcp & Hsplit & -> & Hrest).
    pose proof (utf8_encode_cp_nonempty cp) as Hne.
    apply (IH (length rest')) in Hrest as [Hcps ->]; [|  |done].
    + split; [by constructor|]. rewrite Hsplit. done.
    + apply (f_equal length) in Hsplit. rewrite length_app in Hsplit.
      destruct (utf8_encode_cp cp); [done|]. subst n. simpl in *. lia.
Qed.

(** The encoder produces octets. *)
Lemma TextEncoder_encode_octets s :
  code_unit_string s -> octets (TextEncoder_encode s).
Proof.
  intros Hs. apply to_scalar_values_scalar in Hs.
  unfold TextEncoder_encode, utf8_encode, octets.
  induction Hs as [|cp cps [Hcp Hsur] _ IH]; [constructor|].
  cbn [flat_map]. apply Forall_app. split; [|done].
  rewrite utf8_encode_cp_eq.
  destruct (Z.leb_spec cp 0x7F); [|destruct (Z.leb_spec cp 0x7FF);
    [|destruct (Z.leb_spec cp 0xFFFF)]]; repeat constructor; zlia.
Qed.

Lemma utf8_run_encode cps rest :
  Forall scalar_value cps ->
  utf8_run decoder_init (utf8_encode cps ++ rest)
  = app cps <$> utf8_run decoder_init rest.
Proof.
  unfold utf8_encode. induction 1 as [|cp cps Hcp _ IH]; cbn [flat_map app].
  - by destruct (utf8_run decoder_init rest).
  - rewrite <- app_assoc, utf8_run_encode_cp, IH by done.
    by destruct (utf8_run decoder_init rest).
Qed.

(** A sequence cut short inside a multi-byte encoding is rejected. *)
Lemma utf8_decode_truncated cps cp k :
  Forall scalar_value cps -> scalar_value cp ->
  (0 < k < length (utf8_encode_cp cp))%nat ->
  utf8_decode (utf8_encode cps ++ take k (utf8_encode_cp cp)) = None.
Proof.
  intros Hcps [Hcp Hsur]. unfold utf8_decode. rewrite utf8_run_encode by done.
  rewrite utf8_encode_cp_eq.
  destruct (Z.leb_spec cp 0x7F); [|destruct (Z.leb_spec cp 0x7FF);
    [|destruct (Z.leb_spec cp 0xFFFF)]]; cbn [length]; intros Hk;
    destruct k as [|[|[|[|k]]]]; try lia; cbn [take utf8_run];
    rewrite handler_lead.
  - rewrite (in_range_false 0 0x7F), (in_range_true 0xC2 0xDF) by zlia. done.
  - rewrite (in_range_false 0 0x7F), (in_range_false 0xC2 0xDF),
      (in_range_true 0xE0 0xEF) by zlia. done.
  - rewrite (in_range_false 0 0x7F), (in_range_false 0xC2 0xDF),
      (in_range_true 0xE0 0xEF) by zlia. trail_step. done.
  - rewrite (in_range_false 0 0x7F), (in_range_false 0xC2 0xDF),
      (in_range_false 0xE0 0xEF), (in_range_true 0xF0 0xF4) by zlia. done.
  - rewrite (in_range_false 0 0x7F), (in_range_false 0xC2 0xDF),
      (in_range_false 0xE0 0xEF), (in_range_true 0xF0 0xF4) by zlia.
    trail_step. done.
  - rewrite (in_range_false 0 0x7F), (in_range_false 0xC2 0xDF),
      (in_range_false 0xE0 0xEF), (in_range_true 0xF0 0xF4) by zlia.
    do 2 trail_step. done.
Qed.

End EncodingFacts.

(** ** The bridge *)

Section BridgeFacts.

Variable JSON_stringify : Options -> jsstring.
Variable JSON_parse : jsstring -> option json.
Variable wasm_convert : bytes -> Store -> completion Store.

Local Abbreviation post_run := (post_run JSON_stringify wasm_convert).
Local Abbreviation convert := (convert JSON_stringify JSON_parse wasm_convert).
Local Abbreviation harvest := (harvest JSON_parse).
Local Abbreviation parse_warnings := (parse_warnings JSON_parse).
Local Abbreviation invoke := (invoke JSON_stringify wasm_convert).

Lemma bind_Return {A B} (c : completion A) (f : A -> completion B) b :
  c ≫= f = Return b -> ∃ a, c = Return a ∧ f a = Return b.
Proof. destruct c as [a|e]; simpl; [eauto | discriminate]. Qed.

Lemma addFile_error filename data readonly st e :
  addFile filename data readonly st = Throw e -> e = TypeError.
Proof.
  unfold addFile. destruct data as [s|b|[buffer|]]; simpl; congruence.
Qed.

(** The input loop adds exactly the keys of [files] to [knownFiles]. *)
Lemma add_inputs_known l : ∀ st known st' known',
  for_each add_input l (st, known) = Return (st', known') ->
  known' = known ∪ list_to_set l.*1.
Proof.
  induction l as [|[filename data] l IH]; intros st known st' known' H.
  - simpl in H. injection H as _ <-. set_solver.
  - simpl in H. apply bind_Return in H as ([st1 known1] & H1 & H).
    apply bind_Return in H1 as (st2 & _ & H1). injection H1 as _ <-.
    apply IH in H. subst known'. set_solver.
Qed.

Lemma keys_of_map_to_list (files : gmap jsstring jsvalue) :
  list_to_set (map_to_list files).*1 =@{gset jsstring} dom files.
Proof.
  apply set_eq. intros name.
  rewrite elem_of_list_to_set, list_elem_of_fmap, elem_of_dom. split.
  - intros ([k v] & -> & Hin). apply elem_of_map_to_list in Hin. eauto.
  - intros [v Hv]. exists (name, v). split; [done|].
    by apply elem_of_map_to_list.
Qed.

(** What seeding leaves in the three variables the classifier reads. *)
Lemma seed_known options stdin files s :
  seed options stdin files = Return s ->
  knownFiles s = KnownPathSet options files
  ∧ outputFileName s = or_null (output_file options)
  ∧ extractMediaPath s = or_null (extract_media options).
Proof.
  unfold seed, KnownPathSet. cbn [new_File]. intros H.
  apply bind_Return in H as ([st1 known1] & Hin & H).
  apply add_inputs_known in Hin. rewrite keys_of_map_to_list in Hin.
  apply bind_Return in H as ([st2 known2] & Hout & H).
  apply bind_Return in H as ([st3 known3] & Hex & H).
  injection H as <-. cbn [knownFiles outputFileName extractMediaPath].
  split; [|done].
  assert (known2 = known1 ∪ match or_null (output_file options) with
                            | Some name => {[ name ]}
                            | None => ∅
                            end) as Hk2.
  { destruct (or_null (output_file options)) as [name|].
    - apply bind_Return in Hout as (? & _ & Hout). by injection Hout as _ Hk.
    - injection Hout as _ Hk. rewrite <- Hk. set_solver. }
  assert (known3 = known2 ∪ match or_null (extract_media options) with
                            | Some path =>
                                if endsWith path (js ".zip") then {[ path ]} else ∅
                            | None => ∅
                            end) as Hk3.
  { destruct (or_null (extract_media options)) as [path|].
    - apply bind_Return in Hex as (? & _ & Hex).
      destruct (endsWith path (js ".zip")); injection Hex as _ Hk;
        rewrite <- Hk; set_solver.
    - injection Hex as _ Hk. rewrite <- Hk. set_solver. }
  by rewrite Hk3, Hk2, Hin.
Qed.

Lemma classify_entry_eq s f m name r :
  classify_entry s (f, m) (name, r) =
  match new_blob s name r with
  | Some b => (<[ name := b ]> f, if is_media s name then <[ name := b ]> m else m)
  | None => (f, m)
  end.
Proof.
  unfold classify_entry, new_blob, is_media.
  destruct (bool_decide (name ∈ knownFiles s)); simpl; [done|].
  destruct (data_of (store s) r) as [d|]; simpl; [|done].
  destruct (nonempty d); simpl; [|done].
  by destruct (bool_decide (Some name ≠ outputFileName s)
               && bool_decide (Some name ≠ extractMediaPath s)).
Qed.

Lemma classify_loop s (l : list (jsstring * ref)) :
  NoDup l.*1 -> ∀ f0 m0 name,
  (foldl (classify_entry s) (f0, m0) l).1 !! name
    = match (list_to_map l : gmap jsstring ref) !! name ≫= new_blob s name with
      | Some b => Some b
      | None => f0 !! name
      end
  ∧ (foldl (classify_entry s) (f0, m0) l).2 !! name
    = match (list_to_map l : gmap jsstring ref) !! name ≫= new_blob s name with
      | Some b => if is_media s name then Some b else m0 !! name
      | None => m0 !! name
      end.
Proof.
  induction l as [|[k r] l IH]; intros Hnd f0 m0 name.
  - simpl. by rewrite lookup_empty.
  - apply NoDup_cons in Hnd as [Hk Hnd].
    cbn [foldl]. rewrite classify_entry_eq, list_to_map_cons.
    destruct (decide (k = name)) as [->|Hne].
    + rewrite lookup_insert_eq.
      assert ((list_to_map l : gmap jsstring ref) !! name = None) as Hnone
        by by apply not_elem_of_list_to_map_1.
      destruct (new_blob s name r) as [b|] eqn:Hb;
        match goal with
        | |- context [foldl _ (?f, ?m) l] =>
            destruct (IH Hnd f m name) as [-> ->]
        end; rewrite Hnone; simpl; rewrite Hb.
      * rewrite lookup_insert_eq. split; [done|].
        destruct (is_media s name); [by rewrite lookup_insert_eq|done].
      * done.
    + rewrite lookup_insert_ne by done.
      destruct (new_blob s k r) as [b|];
        match goal with
        | |- context [foldl _ (?f, ?m) l] =>
            destruct (IH Hnd f m name) as [-> ->]
        end.
      * rewrite lookup_insert_ne by done.
        destruct (is_media s k); [by rewrite lookup_insert_ne|done].
      * done.
Qed.

(** The classifier, entry by entry: what [files] and [mediaFiles] hold
    under [name] once the loop is over. *)
Lemma classify_lookup s files0 name :
  (classify s files0).1 !! name
    = match fileSystem (store s) !! name ≫= new_blob s name with
      | Some b => Some b
      | None => files0 !! name
      end
  ∧ (classify s files0).2 !! name
    = match fileSystem (store s) !! name ≫= new_blob s name with
      | Some b => if is_media s name then Some b else None
      | None => None
      end.
Proof.
  unfold classify.
  destruct (classify_loop s (map_to_list (fileSystem (store s)))
              (NoDup_fst_map_to_list _) files0 ∅ name) as [-> ->].
  rewrite list_to_map_to_list, lookup_empty. done.
Qed.

Lemma taken_Some s name b :
  fileSystem (store s) !! name ≫= new_blob s name = Some b ->
  (name ∉ knownFiles s)
  ∧ ∃ d, get_data (store s) name = Some d ∧ nonempty d = true
         ∧ b = VBlob (new_Blob d).
Proof.
  unfold get_data, new_blob.
  destruct (fileSystem (store s) !! name) as [r|]; simpl; [|done].
  case_bool_decide; [done|].
  destruct (data_of (store s) r) as [d|]; simpl; [|done].
  destruct (nonempty d) eqn:Hd; [|done].
  intros [= <-]. eauto.
Qed.


Lemma taken_known s name :
  name ∈ knownFiles s ->
  fileSystem (store s) !! name ≫= new_blob s name = None.
Proof.
  unfold new_blob. intros Hk.
  destruct (fileSystem (store s) !! name) as [r|]; simpl; [|done].
  by rewrite bool_decide_eq_true_2.
Qed.

(** [files] after one of the two harvesting steps. *)
Lemma collect_lookup st key type files0 name :
  collect st key type files0 !! name
  = if bool_decide (or_null key = Some name) then
      match get_data st name with
      | Some d =>
          if nonempty d
          then Some (VBlob {| blob_data := d; blob_type := type |})
          else files0 !! name
      | None => files0 !! name
      end
    else files0 !! name.
Proof.
  unfold collect. destruct (or_null key) as [k|]; [|done].
  case_bool_decide as Hk.
  - injection Hk as ->. destruct (get_data st name) as [d|]; [|done].
    destruct (nonempty d); [by rewrite lookup_insert_eq|done].
  - destruct (get_data st k) as [d|]; [|done].
    destruct (nonempty d); [|done].
    rewrite lookup_insert_ne; [done|congruence].
Qed.

Lemma harvest_Return options s files0 r :
  harvest options s files0 = Return r ->
  let harvested :=
    collect (store s) (extract_media options) (js "application/zip")
      (collect (store s) (output_file options) [] files0) in
  files r = (classify s harvested).1
  ∧ mediaFiles r = (classify s harvested).2
  ∧ parse_warnings s = Return (warnings r)
  ∧ decode_file (store s) (out_file s) = Return (stdout r)
  ∧ decode_file (store s) (err_file s) = Return (stderr r).
Proof.
  unfold harvest. intros H. cbv zeta.
  destruct (classify s _) as [f m].
  apply bind_Return in H as (w & Hw & H).
  apply bind_Return in H as (out & Hout & H).
  apply bind_Return in H as (err & Herr & H).
  by injection H as <-.
Qed.

Lemma convert_Return options stdin files0 r :
  convert options stdin files0 = Return r ->
  ∃ s, post_run options stdin files0 = Return s
       ∧ harvest options s files0 = Return r.
Proof.
  unfold convert, post_run. intros H.
  apply bind_Return in H as (s0 & Hs0 & H).
  apply bind_Return in H as (s & Hs & H).
  exists s. by rewrite Hs0.
Qed.

Lemma post_run_Return options stdin files0 s :
  post_run options stdin files0 = Return s ->
  ∃ s0 st, seed options stdin files0 = Return s0
           ∧ wasm_convert (Encoding.TextEncoder_encode (JSON_stringify options))
               (store s0) = Return st
           ∧ s = with_store s0 st.
Proof.
  unfold post_run, invoke. intros H.
  apply bind_Return in H as (s0 & Hs0 & H).
  apply bind_Return in H as (st & Hst & H).
  injection H as <-. eauto.
Qed.

Lemma convert_post_run options stdin files0 s :
  post_run options stdin files0 = Return s ->
  convert options stdin files0
  = harvest options s files0.
Proof.
  unfold post_run, convert. intros H.
  destruct (seed options stdin files0) as [s0|e]; simpl in *; [|done].
  by rewrite H.
Qed.

Lemma post_run_known options stdin files0 s :
  post_run options stdin files0 = Return s ->
  knownFiles s = KnownPathSet options files0
  ∧ outputFileName s = or_null (output_file options)
  ∧ extractMediaPath s = or_null (extract_media options).
Proof.
  intros H. apply post_run_Return in H as (s0 & st & Hs0 & _ & ->).
  by apply seed_known in Hs0.
Qed.

(** [files] and [mediaFiles] of a result, entry by entry. *)
Lemma result_lookup options stdin files0 s r name :
  post_run options stdin files0 = Return s ->
  convert options stdin files0 = Return r ->
  files r !! name
    = match fileSystem (store s) !! name ≫= new_blob s name with
      | Some b => Some b
      | None =>
          collect (store s) (extract_media options) (js "application/zip")
            (collect (store s) (output_file options) [] files0) !! name
      end
  ∧ mediaFiles r !! name
    = match fileSystem (store s) !! name ≫= new_blob s name with
      | Some b => if is_media s name then Some b else None
      | None => None
      end.
Proof.
  intros Hs Hr. apply convert_Return in Hr as (s' & Hs' & Hr).
  rewrite Hs in Hs'. injection Hs' as <-.
  apply harvest_Return in Hr as (-> & -> & _). apply classify_lookup.
Qed.





(** C10. In every result, [mediaFiles] is a submapping of [files], and
    no system path is a key of [mediaFiles]. *)
Theorem mediaFiles_submap options stdin files0 r :
  convert options stdin files0 = Return r ->
  mediaFiles r ⊆ files r
  ∧ ∀ name, name ∈ system_paths -> mediaFiles r !! name = None.
Proof.
  intros Hr. destruct (convert_Return _ _ _ _ Hr) as (s & Hs & _).
  destruct (post_run_known _ _ _ _ Hs) as (Hknown & _ & _).
  split.
  - apply map_subseteq_spec. intros name v.
    destruct (result_lookup _ _ _ _ _ name Hs Hr) as [-> ->].
    destruct (fileSystem (store s) !! name ≫= new_blob s name) as [b|]; [|done].
    by destruct (is_media s name).
  - intros name Hsys.
    destruct (result_lookup _ _ _ _ _ name Hs Hr) as [_ ->].
    rewrite taken_known; [done|]. rewrite Hknown. unfold KnownPathSet.
    set_solver.
Qed.






(** C9. An empty string under [output-file] or [extract-media] is
    treated as an absent key: seeding gives the store, the KnownPathSet
    and the two paths it gives for the request without the key,
    harvesting collects nothing under it, and with a module that runs
    the same on both requests [convert] returns the same. *)
Theorem empty_path_is_absent options stdin files0 :
  seed options stdin files0 = seed (drop_empty_paths options) stdin files0
  ∧ KnownPathSet options files0 = KnownPathSet (drop_empty_paths options) files0
  ∧ (∀ st type files1, collect st (Some []) type files1 = files1)
  ∧ (∀ s files1,
       harvest options s files1
       = harvest (drop_empty_paths options) s files1)
  ∧ ((∀ st, wasm_convert
              (Encoding.TextEncoder_encode (JSON_stringify options)) st
            = wasm_convert
                (Encoding.TextEncoder_encode
                   (JSON_stringify (drop_empty_paths options))) st) ->
     convert options stdin files0
     = convert (drop_empty_paths options) stdin files0)
  ∧ (output_file options = Some [] ->
     output_file (drop_empty_paths options) = None)
  ∧ (extract_media options = Some [] ->
     extract_media (drop_empty_paths options) = None).
Proof.
  assert (∀ v, or_null (or_null v) = or_null v) as Hidem.
  { intros [[|c v]|]; reflexivity. }
  assert (∀ st v type files1,
             collect st (or_null v) type files1 = collect st v type files1)
    as Hcollect.
  { intros. unfold collect. by rewrite Hidem. }
  assert (seed options stdin files0
          = seed (drop_empty_paths options) stdin files0) as Hseed.
  { unfold seed, drop_empty_paths. cbn [output_file extract_media].
    by rewrite !Hidem. }
  assert (∀ s files1, harvest options s files1
                      = harvest (drop_empty_paths options) s files1)
    as Hharvest.
  { intros s files1. unfold harvest, drop_empty_paths.
    cbn [output_file extract_media]. by rewrite !Hcollect. }
  split_and!; try done.
  - unfold KnownPathSet, drop_empty_paths. cbn [output_file extract_media].
    by rewrite !Hidem.
  - intros Hmodule. unfold convert, invoke. rewrite <- Hseed.
    destruct (seed options stdin files0) as [s0|e]; [|done]. simpl.
    rewrite <- Hmodule.
    destruct (wasm_convert _ (store s0)) as [st|e]; [|done]. simpl.
    apply Hharvest.
  - intros Hout. unfold drop_empty_paths. cbn. by rewrite Hout.
  - intros Hext. unfold drop_empty_paths. cbn. by rewrite Hext.
Qed.


Lemma addFile_stores filename data readonly st d :
  match data with
  | VString text => Encoding.TextEncoder_encode text = d
  | VBlob blob => blob_data blob = d
  | VOther other => other = Some d
  end ->
  ∃ st', addFile filename data readonly st = Return st'
         ∧ get_data st' filename = Some d.
Proof.
  intros Hd.
  destruct data as [text|blob|[buffer|]]; simplify_eq;
    (eexists; split; [reflexivity|]);
    unfold get_data, data_of, fileSystem_set, new_File; simpl;
    rewrite lookup_insert_eq; simpl; by rewrite lookup_insert_eq.
Qed.

Lemma add_inputs_reject l name : ∀ acc,
  (name, VOther None) ∈ l -> for_each add_input l acc = Throw TypeError.
Proof.
  induction l as [|[k v] l IH]; intros [st known] Hin.
  - by apply elem_of_nil in Hin.
  - simpl. destruct (addFile k v true st) as [st'|e] eqn:Hadd; simpl.
    + apply elem_of_cons in Hin as [[= <- <-]|Hin]; [done|]. by apply IH.
    + by apply addFile_error in Hadd as ->.
Qed.

(** C6, as the code has it. Text is encoded as UTF-8 and a Blob's bytes
    are taken as they are. [toUint8Array] throws its unsupported-type
    error on every other value. [addFile], which [convert] seeds the
    store with, asks any value that is not a string for its
    [arrayBuffer()]: a value that has none makes seeding throw a
    [TypeError], whatever the module is, and a value that has one is
    accepted with the bytes of that buffer. *)
Theorem file_value_to_bytes :
  (∀ text, toUint8Array (VString text)
           = Return (Encoding.TextEncoder_encode text))
  ∧ (∀ blob, toUint8Array (VBlob blob) = Return (blob_data blob))
  ∧ (∀ other, toUint8Array (VOther other)
              = Throw (Error "Unsupported type: inData must be a string or a Blob"))
  ∧ (∀ filename readonly st,
       (∀ text, ∃ st', addFile filename (VString text) readonly st = Return st'
                       ∧ get_data st' filename
                         = Some (Encoding.TextEncoder_encode text))
       ∧ (∀ blob, ∃ st', addFile filename (VBlob blob) readonly st = Return st'
                         ∧ get_data st' filename = Some (blob_data blob))
       ∧ (∀ buffer, ∃ st', addFile filename (VOther (Some buffer)) readonly st
                           = Return st'
                           ∧ get_data st' filename = Some buffer)
       ∧ addFile filename (VOther None) readonly st = Throw TypeError)
  ∧ (∀ options stdin files0 name,
       files0 !! name = Some (VOther None) ->
       seed options stdin files0 = Throw TypeError
       ∧ convert options stdin files0
         = Throw TypeError).
Proof.
  repeat split; try done.
  - intros text. by apply addFile_stores.
  - intros blob. by apply addFile_stores.
  - intros buffer. by apply addFile_stores.
  - unfold seed. cbn [new_File].
    erewrite add_inputs_reject; [done|]. by apply elem_of_map_to_list.
  - unfold convert, seed. cbn [new_File].
    erewrite add_inputs_reject; [done|]. by apply elem_of_map_to_list.
Qed.

(** What [convert] returns under a name is the caller's own value, or a
    Blob of the bytes the store holds under that name. *)
Lemma files_are_inputs_or_blobs options stdin files0 s r name v :
  post_run options stdin files0 = Return s ->
  convert options stdin files0 = Return r ->
  files r !! name = Some v ->
  files0 !! name = Some v
  ∨ ∃ d type, v = VBlob {| blob_data := d; blob_type := type |}
              ∧ get_data (store s) name = Some d ∧ nonempty d = true.
Proof.
  intros Hs Hr. destruct (result_lookup _ _ _ _ _ name Hs Hr) as [-> _].
  destruct (fileSystem (store s) !! name ≫= new_blob s name) as [b|] eqn:Hb.
  - intros [= <-]. apply taken_Some in Hb as (_ & d & Hd & Hne & ->).
    right. by exists d, [].
  - rewrite !collect_lookup.
    destruct (get_data (store s) name) as [d|]; [|repeat case_bool_decide; auto].
    destruct (nonempty d) eqn:Hne; [|repeat case_bool_decide; auto].
    repeat case_bool_decide; intros Hv; simplify_eq; eauto;
      right; eexists _, _; eauto.
Qed.

(** C5, as the code has it. [convert] does not convert files back:
    what it returns under a name is the caller's own value or a Blob of
    the bytes the store holds there, valid UTF-8 or not. The conversion
    is [convertData]'s: it returns the decoded text (less a leading
    U+FEFF) for a valid UTF-8 sequence, and a Blob of the same bytes for
    every other sequence, one cut short inside a multi-byte encoding
    included. *)
Theorem files_are_not_decoded options stdin files0 s r :
  post_run options stdin files0 = Return s ->
  convert options stdin files0 = Return r ->
  (∀ name v, files r !! name = Some v ->
     files0 !! name = Some v
     ∨ ∃ d type, v = VBlob {| blob_data := d; blob_type := type |}
                 ∧ get_data (store s) name = Some d ∧ nonempty d = true)
  ∧ (∀ cps, Forall Encoding.scalar_value cps ->
       convertData (Encoding.utf8_encode cps)
       = VString (Encoding.to_jsstring (Encoding.strip_bom cps)))
  ∧ (∀ data, ¬ Encoding.valid_utf8 data ->
       convertData data = VBlob (new_Blob data))
  ∧ (∀ cps cp k,
       Forall Encoding.scalar_value cps -> Encoding.scalar_value cp ->
       (0 < k < length (Encoding.utf8_encode_cp cp))%nat ->
       let data := Encoding.utf8_encode cps ++ take k (Encoding.utf8_encode_cp cp) in
       convertData data = VBlob (new_Blob data)).
Proof.
  intros Hs Hr. split; [|split; [|split]].
  - intros name v. apply (files_are_inputs_or_blobs _ _ _ _ _ _ _ Hs Hr).
  - intros cps Hcps. unfold convertData, Encoding.TextDecoder_decode.
    by rewrite EncodingFacts.utf8_decode_encode.
  - intros data Hinvalid. unfold convertData, Encoding.TextDecoder_decode.
    destruct (Encoding.utf8_decode data) as [cps|] eqn:Hdec; [|done].
    destruct Hinvalid. exists cps. by apply EncodingFacts.utf8_decode_sound.
  - intros cps cp k Hcps Hcp Hk data.
    unfold convertData, Encoding.TextDecoder_decode. subst data.
    by rewrite EncodingFacts.utf8_decode_truncated.
Qed.

End BridgeFacts.

(** C7, as the code has it. For a well-formed string (16-bit code units,
    no unpaired surrogate) the bytes [toUint8Array] makes of it are
    decoded by [convertData] to the string less a leading U+FEFF; so to
    the string itself when it does not begin with U+FEFF. *)
Theorem text_round_trip text :
  Encoding.code_unit_string text -> Encoding.isWellFormed text = true ->
  toUint8Array (VString text) = Return (Encoding.TextEncoder_encode text)
  ∧ convertData (Encoding.TextEncoder_encode text)
    = VString (Encoding.strip_bom text)
  ∧ (head text ≠ Some 0xFEFF ->
     convertData (Encoding.TextEncoder_encode text) = VString text).
Proof.
  intros Hunits Hwf. split; [done|].
  assert (convertData (Encoding.TextEncoder_encode text)
          = VString (Encoding.strip_bom text)) as Hrt.
  { unfold convertData. by rewrite EncodingFacts.decode_encode. }
  split; [done|]. intros Hbom. rewrite Hrt.
  destruct text as [|c text]; [done|]. cbn in *.
  destruct (Z.eqb_spec c 0xFEFF); [|done]. congruence.
Qed.

(** ** The statements at concrete requests *)

Ltac by_compute :=
  first [ vm_compute; reflexivity
        | apply (bool_decide_unpack _); vm_compute; exact I ].







(** The output scenario: [out.html] holds valid UTF-8 and is returned as
    a Blob. *)
Lemma files_are_not_decoded_witness :
  (∅ : gmap jsstring jsvalue) !! js "out.html"
  = Some (VBlob (new_Blob (js "hi")))
  ∨ ∃ d type,
      VBlob (new_Blob (js "hi")) = VBlob {| blob_data := d; blob_type := type |}
      ∧ get_data (store Scenario.output_session) (js "out.html") = Some d
      ∧ nonempty d = true.
Proof.
  destruct (files_are_not_decoded Scenario.stringify Scenario.parse
              Scenario.output_module Scenario.output_options (Some (js "hi"))
              ∅ Scenario.output_session Scenario.output_result)
    as [Hfiles _]; [by_compute..|].
  apply Hfiles. by_compute.
Defined.

(** C5 fails for the declared output: the store holds the valid UTF-8
    sequence ["hi"] under [out.html], which decodes to text, and [files]
    returns it as a Blob. *)
Lemma valid_utf8_returned_as_blob :
  Scenario.run Scenario.output_module Scenario.output_options
    (Some (js "hi")) ∅ = Return Scenario.output_result
  ∧ get_data (store Scenario.output_session) (js "out.html") = Some (js "hi")
  ∧ Encoding.valid_utf8 (js "hi")
  ∧ convertData (js "hi") = VString (js "hi")
  ∧ files Scenario.output_result !! js "out.html"
    = Some (VBlob (new_Blob (js "hi"))).
Proof.
  split_and!; try by_compute.
  exists (js "hi"). split; [|by_compute].
  repeat constructor; cbn; lia.
Qed.

(** C6 fails for a value that is neither a string nor a Blob but has
    [arrayBuffer()]: seeding accepts it, the store holds its bytes and
    [convert] returns a result. *)
Lemma other_value_accepted :
  Scenario.response_files !! js "a.bin" = Some (VOther (Some [1; 2; 3]))
  ∧ Scenario.session Scenario.stdout_module Scenario.no_options None
      Scenario.response_files = Return Scenario.response_session
  ∧ get_data (store Scenario.response_session) (js "a.bin") = Some [1; 2; 3]
  ∧ Scenario.run Scenario.stdout_module Scenario.no_options None
      Scenario.response_files = Return Scenario.response_result.
Proof. split_and!; by_compute. Qed.

(** A string with an accent, a three-byte character and a surrogate
    pair comes back as it was. *)
Lemma text_round_trip_witness :
  toUint8Array (VString Scenario.sample_text)
  = Return (Encoding.TextEncoder_encode Scenario.sample_text)
  ∧ convertData (Encoding.TextEncoder_encode Scenario.sample_text)
    = VString (Encoding.strip_bom Scenario.sample_text)
  ∧ (head Scenario.sample_text ≠ Some 0xFEFF ->
     convertData (Encoding.TextEncoder_encode Scenario.sample_text)
     = VString Scenario.sample_text).
Proof.
  apply (text_round_trip Scenario.sample_text).
  - repeat constructor; cbn; lia.
  - reflexivity.
Defined.

(** C7 fails for text that begins with U+FEFF: the string is well
    formed, and what comes back has lost its first code unit. *)
Lemma leading_bom_is_dropped :
  Encoding.code_unit_string Scenario.bom_text
  ∧ Encoding.isWellFormed Scenario.bom_text = true
  ∧ toUint8Array (VString Scenario.bom_text)
    = Return [0xEF; 0xBB; 0xBF; 0x68; 0x69]
  ∧ convertData [0xEF; 0xBB; 0xBF; 0x68; 0x69] = VString [0x68; 0x69]
  ∧ VString [0x68; 0x69] ≠ VString Scenario.bom_text.
Proof.
  split_and!; try by_compute. discriminate.
Qed.


(** The directory scenario: [mediaFiles] is part of [files]. *)
Lemma mediaFiles_submap_witness :
  mediaFiles Scenario.extract_result ⊆ files Scenario.extract_result
  ∧ mediaFiles Scenario.extract_result !! js "stdout" = None.
Proof.
  destruct (mediaFiles_submap Scenario.stringify Scenario.parse
              Scenario.extract_module Scenario.extract_options None
              Scenario.extract_files Scenario.extract_result)
    as [Hsub Hsys]; [by_compute|].
  split; [exact Hsub|]. apply Hsys. by_compute.
Defined.

#[local] Arguments js : simpl never.

(** * More of the bridge

    ** The seeded store *)

Lemma view_lookup st name :
  view st !! name = fileSystem st !! name ≫= fun file => heap st !! file.
Proof. unfold view. by rewrite lookup_omap. Qed.

Lemma addFile_invariant in_file added m st filename data readonly st' :
  seeding_invariant in_file added m st ->
  addFile filename data readonly st = Return st' ->
  ∃ d, value_bytes data = Some d
       ∧ seeding_invariant in_file (added ∪ {[ filename ]})
           (<[ filename := File d readonly ]> m) st'.
Proof.
  intros (Hclosed & Hview & Hin & Honly) Hadd.
  assert (∃ d, value_bytes data = Some d
               ∧ st' = fileSystem_set filename (new_File d readonly st).1
                         (new_File d readonly st).2) as (d & Hd & ->).
  { unfold addFile in Hadd.
    destruct data as [text|blob|[buffer|]]; simplify_eq/=; eauto. }
  exists d. split; [done|].
  pose proof (is_fresh (dom (heap st))) as Hfresh.
  set (file := fresh (dom (heap st))) in *.
  assert (in_file ≠ file) as Hne.
  { intros ->. apply Hfresh. apply elem_of_dom. eauto. }
  unfold seeding_invariant. split_and!.
  all: try rewrite view_lookup.
  all: cbn [fileSystem_set new_File fst snd heap fileSystem]; fold file.
  - intros name file'. rewrite lookup_insert. case_decide.
    + intros [= <-]. rewrite dom_insert_L. set_solver.
    + intros Hname%Hclosed. rewrite dom_insert_L. set_solver.
  - apply map_eq. intros name. rewrite view_lookup.
    cbn [fileSystem_set new_File fst snd heap fileSystem]; fold file.
    rewrite !lookup_insert. case_decide as Hname.
    + cbn. by rewrite lookup_insert_eq.
    + rewrite <- Hview, view_lookup.
      destruct (fileSystem st !! name) as [file'|] eqn:Hfile; cbn; [|done].
      rewrite lookup_insert_ne; [done|]. intros <-.
      by apply Hclosed in Hfile.
  - by rewrite lookup_insert_ne.
  - intros name. rewrite lookup_insert. case_decide as Hname.
    + subst name. split; [congruence|]. set_solver.
    + rewrite Honly. set_solver.
Qed.

Lemma add_inputs_invariant in_file (l : list (jsstring * jsvalue)) :
  NoDup l.*1 -> ∀ added m st known st' known',
  seeding_invariant in_file added m st ->
  for_each add_input l (st, known) = Return (st', known') ->
  seeding_invariant in_file (added ∪ list_to_set l.*1)
    (omap (fun v => (fun d => File d true) <$> value_bytes v)
       (list_to_map l : gmap jsstring jsvalue) ∪ m) st'.
Proof.
  induction l as [|[filename data] l IH];
    intros Hnd added m st known st' known' Hinv Hloop.
  - cbn in Hloop. injection Hloop as <- _. cbn.
    rewrite omap_empty, (left_id_L ∅ (∪)), (right_id_L ∅ (∪)). done.
  - apply NoDup_cons in Hnd as [Hfresh Hnd]. cbn in Hloop.
    apply bind_Return in Hloop as ([st1 known1] & Hadd & Hloop).
    apply bind_Return in Hadd as (st2 & Hadd & [= <- <-]).
    destruct (addFile_invariant _ _ _ _ _ _ _ _ Hinv Hadd) as (d & Hd & Hinv1).
    specialize (IH Hnd _ _ _ _ _ _ Hinv1 Hloop).
    cbn [fmap list_fmap fst list_to_set foldr list_to_map].
    replace (added ∪ ({[filename]} ∪ list_to_set l.*1))
      with (added ∪ {[filename]} ∪ list_to_set l.*1) by set_solver.
    replace (omap _ (<[filename:=data]> (list_to_map l)) ∪ m)
      with (omap (fun v => (fun d => File d true) <$> value_bytes v)
              (list_to_map l : gmap jsstring jsvalue)
            ∪ <[filename:=File d true]> m); [done|].
    apply map_eq. intros name.
    rewrite !lookup_union, !lookup_omap, !lookup_insert.
    case_decide as Hname; [|done]. subst name.
    rewrite (not_elem_of_list_to_map_1 _ _ Hfresh). cbn. rewrite Hd. cbn.
    by destruct (m !! filename).
Qed.

Lemma set_data_view in_file added m st d :
  seeding_invariant in_file added m st ->
  view (set_data in_file d st)
  = if bool_decide (js "stdin" ∈ added) then m
    else <[ js "stdin" := File d true ]> m.
Proof.
  intros (Hclosed & <- & Hin & Honly). apply map_eq. intros name.
  rewrite view_lookup. cbn [set_data heap fileSystem].
  assert (view st !! name
          = fileSystem st !! name ≫= fun file => heap st !! file) as Hold
    by apply view_lookup.
  destruct (fileSystem st !! name) as [file|] eqn:Hfile; cbn in *.
  - destruct (decide (file = in_file)) as [->|Hne].
    + apply Honly in Hfile as [-> Hnot].
      rewrite bool_decide_eq_false_2 by done.
      by rewrite lookup_alter_eq, Hin, lookup_insert_eq.
    + rewrite lookup_alter_ne by done. rewrite <- Hold.
      case_bool_decide; [done|]. rewrite lookup_insert_ne; [done|].
      intros <-. destruct Hne.
      assert (fileSystem st !! js "stdin" = Some in_file) as Hstd
        by by apply Honly.
      congruence.
  - case_bool_decide; [done|]. rewrite lookup_insert_ne; [done|].
    intros <-.
    assert (fileSystem st !! js "stdin" = Some in_file) as Hstd
      by by apply Honly.
    congruence.
Qed.

Lemma add_inputs_accepted (l : list (jsstring * jsvalue)) : ∀ acc acc',
  for_each add_input l acc = Return acc' ->
  Forall (fun entry => is_Some (value_bytes entry.2)) l.
Proof.
  induction l as [|[filename data] l IH]; intros [st known] acc' Hloop.
  - constructor.
  - cbn in Hloop. apply bind_Return in Hloop as ([st1 known1] & Hadd & Hloop).
    constructor; [|by eapply IH]. cbn.
    unfold addFile in Hadd. by destruct data as [text|blob|[buffer|]].
Qed.

Lemma placeholder_insert path m :
  placeholder path ∪ m
  = match or_null path with
    | Some name => <[ name := File [] false ]> m
    | None => m
    end.
Proof.
  unfold placeholder. destruct (or_null path) as [name|].
  - by rewrite insert_union_singleton_l.
  - by rewrite (left_id_L ∅ (∪)).
Qed.

Lemma placeholder_step in_file added m st path st' :
  seeding_invariant in_file added m st ->
  match or_null path with
  | Some name => addFile name (VBlob (new_Blob [])) false st
  | None => Return st
  end = Return st' ->
  seeding_invariant in_file
    (added ∪ match or_null path with Some name => {[ name ]} | None => ∅ end)
    (placeholder path ∪ m) st'.
Proof.
  intros Hinv Hadd. rewrite placeholder_insert.
  destruct (or_null path) as [name|].
  - by destruct (addFile_invariant _ _ _ _ _ _ _ _ Hinv Hadd)
      as (d & [= <-] & Hinv').
  - injection Hadd as <-. by rewrite (right_id_L ∅ (∪)).
Qed.

Lemma system_view_stdin stdin :
  system_view stdin
  = <[ js "stdin" :=
         File (match or_null stdin with
               | Some text => Encoding.TextEncoder_encode text
               | None => []
               end) true ]> (system_view None).
Proof. unfold system_view. by rewrite insert_insert_eq. Qed.

Lemma initial_invariant :
  let st := {| heap := ∅; fileSystem := ∅ |} in
  let '(in_file, st) := new_File [] true st in
  let '(out_file, st) := new_File [] false st in
  let '(err_file, st) := new_File [] false st in
  let '(warnings_file, st) := new_File [] false st in
  let st := fileSystem_set (js "stdin") in_file st in
  let st := fileSystem_set (js "stdout") out_file st in
  let st := fileSystem_set (js "stderr") err_file st in
  let st := fileSystem_set (js "warnings") warnings_file st in
  seeding_invariant in_file ∅ (system_view None) st.
Proof.
  cbn [new_File]. split_and!.
  - apply map_Forall_lookup. apply (bool_decide_unpack _). by vm_compute.
  - by vm_compute.
  - by vm_compute.
  - intros name. split.
    + intros Hname. split; [|set_solver]. revert Hname.
      match goal with
      | |- ?m !! name = Some ?file -> _ =>
          assert (map_Forall
                    (fun name file' => file' = file -> name = js "stdin") m)
            as Hall by (apply (bool_decide_unpack _); by vm_compute)
      end.
      intros Hname. by apply (map_Forall_lookup_1 _ _ _ _ Hall Hname).
    + intros [-> _]. by vm_compute.
Qed.

Lemma union_insert_hidden (a m : gmap jsstring Inode) name x :
  is_Some (a !! name) -> a ∪ <[ name := x ]> m = a ∪ m.
Proof.
  intros [y Hy]. apply map_eq. intros name'. rewrite !lookup_union.
  destruct (decide (name = name')) as [<-|Hne].
  - rewrite Hy. by destruct (m !! name), (<[name:=x]> m !! name).
  - by rewrite lookup_insert_ne.
Qed.

(** Seeding up to the point where stdin is set. *)
Lemma seed_invariant options stdin files s :
  seed options stdin files = Return s ->
  map_Forall (fun _ v => is_Some (value_bytes v)) files
  ∧ ∃ st,
      seeding_invariant (in_file s)
        (∅ ∪ list_to_set (map_to_list files).*1
         ∪ match or_null (output_file options) with
           | Some name => {[name]}
           | None => ∅
           end
         ∪ match or_null (extract_media options) with
           | Some name => {[name]}
           | None => ∅
           end)
        (placeholder (extract_media options)
         ∪ (placeholder (output_file options)
            ∪ (omap (fun v => (fun d => File d true) <$> value_bytes v) files
               ∪ system_view None)))
        st
      ∧ store s = match or_null stdin with
                  | Some text =>
                      set_data (in_file s) (Encoding.TextEncoder_encode text) st
                  | None => st
                  end.
Proof.
  unfold seed. pose proof initial_invariant as Hinit. cbn [new_File] in *.
  intros Hseed.
  apply bind_Return in Hseed as ([st1 known1] & Hloop & Hseed).
  pose proof (add_inputs_accepted _ _ _ Hloop) as Haccepted.
  apply (add_inputs_invariant _ _ (NoDup_fst_map_to_list _) _ _ _ _ _ _ Hinit)
    in Hloop as Hinv1.
  rewrite list_to_map_to_list in Hinv1.
  apply bind_Return in Hseed as ([st2 known2] & Hout & Hseed).
  assert (match or_null (output_file options) with
          | Some name => addFile name (VBlob (new_Blob [])) false st1
          | None => Return st1
          end = Return st2) as Hout'.
  { destruct (or_null (output_file options)); [|by injection Hout as ->].
    by apply bind_Return in Hout as (st & -> & [= ->]). }
  apply (placeholder_step _ _ _ _ _ _ Hinv1) in Hout' as Hinv2.
  apply bind_Return in Hseed as ([st3 known3] & Hext & Hseed).
  assert (match or_null (extract_media options) with
          | Some name => addFile name (VBlob (new_Blob [])) false st2
          | None => Return st2
          end = Return st3) as Hext'.
  { destruct (or_null (extract_media options)) as [path|];
      [|by injection Hext as ->].
    apply bind_Return in Hext as (st & -> & Hext).
    by destruct (endsWith path (js ".zip")); injection Hext as ->. }
  apply (placeholder_step _ _ _ _ _ _ Hinv2) in Hext' as Hinv3.
  injection Hseed as <-. cbn [store in_file].
  split.
  - rewrite Forall_forall in Haccepted. intros name v Hv.
    apply (Haccepted (name, v)). by apply elem_of_map_to_list.
  - by exists st3.
Qed.

(** What seeding leaves in the store. *)
Lemma seed_view options stdin files s :
  seed options stdin files = Return s ->
  view (store s) = seeded_view options stdin files.
Proof.
  intros Hseed.
  apply seed_invariant in Hseed as (Haccepted & st3 & Hinv3 & ->).
  set (inputs := omap (fun v => (fun d => File d true) <$> value_bytes v) files)
    in *.
  set (added := ∅ ∪ list_to_set (map_to_list files).*1
                ∪ match or_null (output_file options) with
                  | Some name => {[name]} | None => ∅ end
                ∪ match or_null (extract_media options) with
                  | Some name => {[name]} | None => ∅ end) in *.
  assert (js "stdin" ∈ added ↔
          is_Some ((placeholder (extract_media options)
                    ∪ placeholder (output_file options) ∪ inputs)
                     !! js "stdin")) as Hadded.
  { rewrite !lookup_union_is_Some. unfold added, placeholder, inputs.
    rewrite !elem_of_union, elem_of_list_to_set, list_elem_of_fmap.
    rewrite lookup_omap.
    assert ((∃ entry : jsstring * jsvalue,
                js "stdin" = entry.1 ∧ entry ∈ map_to_list files)
            ↔ is_Some (files !! js "stdin" ≫=
                       fun v => (fun d => File d true) <$> value_bytes v))
      as ->.
    { split.
      - intros ([name v] & Hname & Hin). cbn in Hname. subst name.
        apply elem_of_map_to_list in Hin.
        destruct (Haccepted _ _ Hin) as [d Hd].
        rewrite Hin. cbn. rewrite Hd. eauto.
      - intros [x Hx]. destruct (files !! js "stdin") as [v|] eqn:Hv; [|done].
        exists (js "stdin", v). split; [done|]. by apply elem_of_map_to_list. }
    destruct (or_null (output_file options)) as [out|],
             (or_null (extract_media options)) as [ext|];
      rewrite ?lookup_singleton_is_Some, ?lookup_empty, ?is_Some_alt;
      set_solver. }
  unfold seeded_view. fold inputs. rewrite system_view_stdin.
  match goal with |- view ?st = _ => set (final := st) end.
  assert (view final
          = if bool_decide (js "stdin" ∈ added)
            then placeholder (extract_media options)
                 ∪ (placeholder (output_file options)
                    ∪ (inputs ∪ system_view None))
            else <[ js "stdin" :=
                      File (match or_null stdin with
                            | Some text => Encoding.TextEncoder_encode text
                            | None => []
                            end) true ]>
                   (placeholder (extract_media options)
                    ∪ (placeholder (output_file options)
                       ∪ (inputs ∪ system_view None)))) as ->.
  { subst final. destruct (or_null stdin) as [text|].
    - apply (set_data_view _ _ _ _ _ Hinv3).
    - destruct Hinv3 as (_ & -> & _). case_bool_decide; [done|].
      rewrite !(assoc_L (∪)), insert_union_r.
      + unfold system_view. by rewrite insert_insert_eq.
      + apply eq_None_not_Some. by rewrite <- Hadded. }
  rewrite !(assoc_L (∪)). case_bool_decide as Hin.
  - symmetry. apply union_insert_hidden. by apply Hadded.
  - apply insert_union_r. apply eq_None_not_Some. by rewrite <- Hadded.
Qed.

Lemma get_data_view st name :
  get_data st name = view st !! name ≫= inode_data.
Proof.
  unfold get_data, data_of, view. rewrite lookup_omap.
  by destruct (fileSystem st !! name).
Qed.

Lemma seed_closed options stdin files s name file :
  seed options stdin files = Return s ->
  fileSystem (store s) !! name = Some file ->
  is_Some (heap (store s) !! file).
Proof.
  intros Hseed.
  apply seed_invariant in Hseed as (_ & st & (Hclosed & _) & ->).
  intros Hfile. apply elem_of_dom.
  destruct (or_null stdin) as [text|]; [|by eapply Hclosed].
  cbn [set_data heap fileSystem] in *. rewrite dom_alter_L. by eapply Hclosed.
Qed.

(** X1. The store the module is invoked on, name by name: the four
    system files, hidden by the caller's files where the names
    coincide, hidden in turn by the empty placeholder of the output
    path and that of the extraction target; what can be read under a
    name is the data of the file so described. *)
Theorem seeded_store options stdin files s :
  seed options stdin files = Return s ->
  view (store s) = seeded_view options stdin files
  ∧ ∀ name,
      get_data (store s) name
      = seeded_view options stdin files !! name ≫= inode_data.
Proof.
  intros Hseed. apply seed_view in Hseed.
  split; [done|]. intros name. by rewrite get_data_view, Hseed.
Qed.

(** X2. The names in the store the module is invoked on are those of
    the KnownPathSet and the extraction target: the only name seeding
    can add to the store without making it known is an extraction
    target that does not end in [.zip]. *)
Theorem seeded_paths options stdin files s :
  seed options stdin files = Return s ->
  dom (fileSystem (store s))
  = KnownPathSet options files
    ∪ match or_null (extract_media options) with
      | Some path => {[ path ]}
      | None => ∅
      end.
Proof.
  intros Hseed.
  pose proof (proj1 (seed_invariant _ _ _ _ Hseed)) as Haccepted.
  pose proof (seed_view _ _ _ _ Hseed) as Hview.
  assert (dom (fileSystem (store s)) = dom (view (store s))) as ->.
  { apply set_eq. intros name. rewrite !elem_of_dom.
    unfold view. rewrite lookup_omap.
    destruct (fileSystem (store s) !! name) as [file|] eqn:Hfile; cbn;
      [|by rewrite !is_Some_alt].
    split; [intros _|by eauto]. by eapply seed_closed. }
  rewrite Hview. unfold seeded_view, KnownPathSet, placeholder, system_view.
  rewrite !dom_union_L.
  assert (dom (omap (fun v => (fun d => File d true) <$> value_bytes v) files)
          = dom files) as ->.
  { apply set_eq. intros name. rewrite !elem_of_dom, lookup_omap.
    destruct (files !! name) as [v|] eqn:Hv; cbn; [|by rewrite !is_Some_alt].
    destruct (Haccepted _ _ Hv) as [d ->]. cbn. split; eauto. }
  unfold system_paths.
  destruct (or_null (output_file options)) as [out|],
           (or_null (extract_media options)) as [ext|];
    try destruct (endsWith ext (js ".zip"));
    rewrite ?dom_insert_L, ?dom_singleton_L, ?dom_empty_L; set_solver.
Qed.

(** ** Harvesting *)

Section HarvestFacts.

Variable JSON_stringify : Options -> jsstring.
Variable JSON_parse : jsstring -> option json.
Variable wasm_convert : bytes -> Store -> completion Store.

Local Abbreviation post_run := (post_run JSON_stringify wasm_convert).
Local Abbreviation convert := (convert JSON_stringify JSON_parse wasm_convert).



Lemma decode_file_invalid st file :
  ¬ Encoding.valid_utf8 (default [] (data_of st file)) ->
  decode_file st file = Throw TypeError.
Proof.
  intros Hinvalid. unfold decode_file, Encoding.TextDecoder_decode.
  destruct (Encoding.utf8_decode _) as [cps|] eqn:Hdec; [|done].
  destruct Hinvalid. exists cps. by apply EncodingFacts.utf8_decode_sound.
Qed.

Lemma decode_file_error st file e :
  decode_file st file = Throw e -> e = TypeError.
Proof.
  unfold decode_file. destruct (Encoding.TextDecoder_decode _); congruence.
Qed.

Lemma parse_warnings_error s e :
  parse_warnings JSON_parse s = Throw e -> e = TypeError.
Proof.
  unfold parse_warnings.
  destruct (decode_file (store s) (warnings_file s)) as [raw|e'] eqn:Hraw; cbn.
  - destruct (truthy raw); [destruct (JSON_parse raw)|]; discriminate.
  - intros [= <-]. by apply decode_file_error in Hraw.
Qed.

(** X5. When the module has returned and one of the three streams
    [warnings], [stdout], [stderr] does not hold valid UTF-8, [convert]
    throws a [TypeError] and returns nothing of the run. *)
Theorem malformed_stream_fails options stdin files0 s :
  post_run options stdin files0 = Return s ->
  ¬ Encoding.valid_utf8 (default [] (data_of (store s) (warnings_file s)))
  ∨ ¬ Encoding.valid_utf8 (default [] (data_of (store s) (out_file s)))
  ∨ ¬ Encoding.valid_utf8 (default [] (data_of (store s) (err_file s))) ->
  convert options stdin files0 = Throw TypeError.
Proof.
  intros Hs Hbad.
  rewrite (convert_post_run _ _ _ _ _ _ _ Hs). unfold harvest.
  destruct (classify s _) as [f m].
  destruct (parse_warnings JSON_parse s) as [w|e] eqn:Hw; cbn.
  2:{ by apply parse_warnings_error in Hw as ->. }
  destruct (decode_file (store s) (out_file s)) as [out|e] eqn:Hout; cbn.
  2:{ by apply decode_file_error in Hout as ->. }
  destruct (decode_file (store s) (err_file s)) as [err|e] eqn:Herr; cbn.
  2:{ by apply decode_file_error in Herr as ->. }
  destruct Hbad as [Hbad|[Hbad|Hbad]]; apply decode_file_invalid in Hbad.
  - unfold parse_warnings in Hw. by rewrite Hbad in Hw.
  - congruence.
  - congruence.
Qed.

End HarvestFacts.

(** ** Marshalling *)

Module MarshalFacts.
Import Encoding EncodingFacts Marshal.

Lemma encodeInto_loop_fits items : ∀ written_so_far room read,
  (length (utf8_encode items) <= length room)%nat ->
  encodeInto_loop items written_so_far room read
  = {| destination := written_so_far ++ utf8_encode items
                      ++ drop (length (utf8_encode items)) room;
       read := read + units items;
       written := Z.of_nat (length written_so_far
                            + length (utf8_encode items)) |}.
Proof.
  unfold utf8_encode.
  induction items as [|item items IH]; intros written_so_far room read Hfits.
  - cbn. f_equal; lia.
  - cbn [flat_map encodeInto_loop units foldr] in *.
    rewrite length_app in Hfits.
    rewrite (proj2 (Z.leb_le _ _)) by lia.
    rewrite IH by (rewrite length_drop; lia).
    rewrite drop_drop, !length_app, <- !app_assoc.
    f_equal; try lia. unfold units. destruct (0xFFFF <? item); lia.
Qed.

Lemma units_length s :
  code_unit_string s -> units (to_scalar_values s) = Z.of_nat (length s).
Proof.
  unfold code_unit_string, units.
  induction s as [|c|c d s IH1 IH2] using list_pair_ind; intros Hs.
  - done.
  - apply Forall_cons in Hs as [Hc _]. cbn.
    split_surrogates; cbn; rewrite ?(proj2 (Z.ltb_ge _ _)) by lia; lia.
  - apply Forall_cons in Hs as [Hc Hs]. pose proof Hs as Hds.
    apply Forall_cons in Hs as [Hd Hs].
    rewrite to_scalar_values_pair.
    split_surrogates; cbn [foldr length].
    + rewrite (proj2 (Z.ltb_lt _ _)) by zlia. rewrite IH1 by done. lia.
    + rewrite (proj2 (Z.ltb_ge _ _)) by lia. rewrite IH2 by done.
      cbn [length]. lia.
    + rewrite (proj2 (Z.ltb_ge _ _)) by lia. rewrite IH2 by done.
      cbn [length]. lia.
    + rewrite (proj2 (Z.ltb_ge _ _)) by lia. rewrite IH2 by done.
      cbn [length]. lia.
Qed.

Lemma encodeInto_exact source memory :
  length memory = length (TextEncoder_encode source) ->
  encodeInto source memory
  = {| destination := TextEncoder_encode source;
       read := units (to_scalar_values source);
       written := Z.of_nat (length (TextEncoder_encode source)) |}.
Proof.
  intros Hlen. unfold encodeInto, TextEncoder_encode in *.
  rewrite encodeInto_loop_fits by lia.
  rewrite drop_ge by lia. cbn. by rewrite app_nil_r.
Qed.

(** An ASCII string is its own encoding. *)
Lemma encode_ascii s :
  Forall (fun c => 0 <= c <= 0x7F) s -> TextEncoder_encode s = s.
Proof.
  unfold TextEncoder_encode, utf8_encode.
  induction 1 as [|c s Hc _ IH]; [done|].
  assert (to_scalar_values (c :: s) = c :: to_scalar_values s) as ->.
  { cbn [to_scalar_values]. by split_surrogates; try lia. }
  cbn [flat_map]. rewrite IH. unfold utf8_encode_cp.
  by rewrite (proj2 (Z.leb_le _ _)) by lia.
Qed.





End MarshalFacts.

(** X6. The request text is written whole: with a region of the
    encoding's byte length, [encodeInto] consumes every code unit of
    the text and the region ends up holding exactly
    [TextEncoder.encode(opts_str)]. *)
Theorem request_written_whole opts_str memory :
  Encoding.code_unit_string opts_str ->
  (length (Encoding.TextEncoder_encode opts_str) <= length memory)%nat ->
  let encoded := Encoding.TextEncoder_encode opts_str in
  let result := Marshal.encodeInto opts_str (take (length encoded) memory) in
  Marshal.write_request opts_str memory = encoded ++ drop (length encoded) memory
  ∧ Marshal.read result = Z.of_nat (length opts_str)
  ∧ Marshal.written result = Z.of_nat (length encoded).
Proof.
  intros Hunits Hroom encoded result. subst encoded result.
  unfold Marshal.write_request. cbv zeta.
  rewrite MarshalFacts.encodeInto_exact by (rewrite length_take; lia).
  cbn. by rewrite MarshalFacts.units_length.
Qed.

(** X7. An ASCII argument becomes a NUL-terminated C string: the region
    holds the argument's characters as bytes, then 0. *)
Theorem ascii_arg_is_c_string arg memory :
  Forall (fun c => 0 <= c <= 0x7F) arg ->
  (length arg < length memory)%nat ->
  Marshal.write_arg arg memory = arg ++ 0 :: drop (S (length arg)) memory.
Proof.
  intros Hascii Hroom. unfold Marshal.write_arg.
  pose proof (MarshalFacts.encode_ascii arg Hascii) as Hencode.
  rewrite MarshalFacts.encodeInto_exact
    by (rewrite length_take, Hencode; lia).
  cbn [Marshal.destination]. rewrite Hencode.
  rewrite insert_app_r_alt by lia. rewrite Nat.sub_diag.
  destruct (drop (length arg) memory) as [|b rest] eqn:Hdrop.
  - apply (f_equal length) in Hdrop. rewrite length_drop in Hdrop.
    cbn in Hdrop. lia.
  - cbn. do 2 f_equal.
    replace (S (length arg)) with (length arg + 1)%nat by lia.
    by rewrite <- drop_drop, Hdrop.
Qed.


(** ** The legacy API *)

Module LegacyFacts.
Import Legacy CommandLine.

Lemma trimStart_blank lead s : blank lead -> trimStart (lead ++ s) = trimStart s.
Proof. induction 1 as [|c lead Hc _ IH]; [done|]. cbn. by rewrite Hc. Qed.

Lemma trimStart_token t s : token t -> trimStart (t ++ s) = t ++ s.
Proof.
  intros [Hne Hws]. destruct t as [|c t]; [done|].
  apply Forall_cons in Hws as [Hc _]. cbn. by rewrite Hc.
Qed.

Lemma token_reverse t : token t -> token (reverse t).
Proof.
  intros [Hne Hws]. split.
  - intros Hrev. apply Hne. apply (f_equal reverse) in Hrev.
    by rewrite reverse_involutive in Hrev.
  - by apply Forall_reverse.
Qed.

Lemma blank_reverse s : blank s -> blank (reverse s).
Proof. apply Forall_reverse. Qed.

(** A line that ends with a token: its reverse begins with one. *)
Lemma join_reverse first more :
  token first -> Forall (fun '(separator, t) => token t) more ->
  ∃ t rest, token t ∧ reverse (join first more) = t ++ rest.
Proof.
  intros Hfirst Hmore. unfold join.
  destruct more as [|[separator t] more _] using rev_ind.
  - exists (reverse first), []. cbn. rewrite !app_nil_r.
    split; [by apply token_reverse|done].
  - apply Forall_app in Hmore as [_ Hlast].
    apply Forall_inv in Hlast. cbn in Hlast.
    rewrite flat_map_app. cbn. rewrite app_nil_r, !reverse_app.
    rewrite <- !app_assoc. exists (reverse t). eexists.
    split; [by apply token_reverse|reflexivity].
Qed.

Lemma trim_join lead first more trail :
  blank lead -> blank trail -> token first ->
  Forall (fun '(separator, t) => token t) more ->
  trim (lead ++ join first more ++ trail) = join first more.
Proof.
  intros Hlead Htrail Hfirst Hmore. unfold trim.
  rewrite trimStart_blank by done.
  assert (trimStart (join first more ++ trail) = join first more ++ trail)
    as ->.
  { unfold join. rewrite <- app_assoc. by apply trimStart_token. }
  rewrite reverse_app, trimStart_blank by by apply blank_reverse.
  destruct (join_reverse first more Hfirst Hmore) as (t & rest & Ht & Hrev).
  rewrite Hrev, trimStart_token by done.
  by rewrite <- Hrev, reverse_involutive.
Qed.

Lemma split_loop_token t : ∀ piece s,
  Forall (fun c => is_white_space c = false) t ->
  split_loop false piece (t ++ s) = split_loop false (piece ++ t) s.
Proof.
  induction t as [|c t IH]; intros piece s Hws.
  - by rewrite app_nil_r.
  - apply Forall_cons in Hws as [Hc Hws]. cbn. rewrite Hc.
    rewrite IH by done. by rewrite <- app_assoc.
Qed.

Lemma split_loop_run separator : ∀ s,
  blank separator ->
  split_loop true [] (separator ++ s) = split_loop true [] s.
Proof.
  induction separator as [|c separator IH]; intros s Hws; [done|].
  apply Forall_cons in Hws as [Hc Hws]. cbn. rewrite Hc. by apply IH.
Qed.

Lemma split_loop_separator piece separator t s :
  separator ≠ [] -> blank separator -> token t ->
  split_loop false piece (separator ++ t ++ s)
  = piece :: split_loop false t s.
Proof.
  intros Hne Hblank [Hnet Hws].
  destruct separator as [|c separator]; [done|].
  apply Forall_cons in Hblank as [Hc Hblank]. cbn. rewrite Hc. f_equal.
  rewrite split_loop_run by done.
  destruct t as [|c' t]; [done|].
  pose proof Hws as Hws'. apply Forall_cons in Hws' as [Hc' _].
  cbn. rewrite Hc'. cbn.
  apply Forall_cons in Hws as [_ Hws].
  by rewrite split_loop_token.
Qed.

Lemma split_join more : ∀ first,
  token first ->
  Forall (fun '(separator, t) =>
            separator ≠ [] ∧ blank separator ∧ token t) more ->
  split_loop false first (flat_map (fun '(separator, t) => separator ++ t) more)
  = first :: more.*2.
Proof.
  induction more as [|[separator t] more IH]; intros first Hfirst Hmore.
  - done.
  - apply Forall_cons in Hmore as [(Hne & Hblank & Ht) Hmore].
    cbn [flat_map fmap list_fmap snd]. rewrite <- app_assoc.
    rewrite split_loop_separator by done. f_equal. by apply IH.
Qed.

End LegacyFacts.

(** X9. [args_str.trim().split(/\s+/)] reads a command line back into
    its tokens: tokens separated by non-empty runs of white space, with
    any white space before and after, come out as exactly those
    tokens. *)
Theorem tokens_read_back lead first more trail :
  CommandLine.blank lead -> CommandLine.blank trail ->
  CommandLine.token first ->
  Forall (fun '(separator, t) =>
            separator ≠ [] ∧ CommandLine.blank separator
            ∧ CommandLine.token t) more ->
  Legacy.split_whitespace
    (Legacy.trim (lead ++ CommandLine.join first more ++ trail))
  = first :: more.*2.
Proof.
  intros Hlead Htrail Hfirst Hmore.
  rewrite LegacyFacts.trim_join; try done.
  - unfold Legacy.split_whitespace, CommandLine.join.
    destruct Hfirst as [Hne Hws].
    rewrite LegacyFacts.split_loop_token by done. cbn [app].
    by apply LegacyFacts.split_join.
  - eapply Forall_impl; [exact Hmore|]. by intros [separator t] (_ & _ & Ht).
Qed.

Module ParseFacts.
Import Legacy CommandLine.

Lemma get_set_eq key value o :
  get_property key (set_property key value o) = value.
Proof.
  induction o as [|[k v] o IH]; cbn.
  - by rewrite bool_decide_eq_true_2.
  - case_bool_decide as Hk; cbn.
    + by rewrite bool_decide_eq_true_2.
    + by rewrite bool_decide_eq_false_2.
Qed.

Lemma get_set_ne key key' value o :
  key' ≠ key ->
  get_property key (set_property key' value o) = get_property key o.
Proof.
  intros Hne. induction o as [|[k v] o IH]; cbn.
  - by rewrite bool_decide_eq_false_2.
  - case_bool_decide as Hk; cbn.
    + subst k. by rewrite !bool_decide_eq_false_2.
    + by rewrite IH.
Qed.

(** What the loop does with a setting: it makes the assignment and goes
    on after the setting's tokens. *)
Lemma parse_args_setting s rest o :
  well_formed s ->
  parse_args (render s ++ rest) o
  = parse_args rest
      (match assignment s with
       | Some (key, value) => set_property key value o
       | None => o
       end).
Proof.
  intros Hs.
  destruct s as [[] v|[] v|[] v|[]|v|[]|t];
    try (cbn [render app assignment parse_args];
         repeat (case_bool_decide as H;
                 [try (exfalso; vm_compute in H; discriminate H)
                 |try (exfalso; apply H; reflexivity)];
                 cbn [orb]);
         reflexivity).
  cbn [render app assignment parse_args]. cbn in Hs.
  unfold flags in Hs. rewrite !not_elem_of_cons in Hs.
  destruct Hs as (?&?&?&?&?&?&?&?&?&?&?&_).
  by rewrite !bool_decide_eq_false_2.
Qed.

Lemma parse_args_settings settings : ∀ rest o,
  Forall well_formed settings ->
  parse_args (flat_map render settings ++ rest) o
  = parse_args rest
      (foldl (fun o s => match assignment s with
                         | Some (key, value) => set_property key value o
                         | None => o
                         end) o settings).
Proof.
  induction settings as [|s settings IH]; intros rest o Hs; [done|].
  apply Forall_cons in Hs as [Hs Hrest].
  cbn [flat_map foldl]. rewrite <- app_assoc.
  rewrite parse_args_setting by done. by apply IH.
Qed.

Lemma get_assigned key settings : ∀ o,
  get_property key
    (foldl (fun o s => match assignment s with
                       | Some (key, value) => set_property key value o
                       | None => o
                       end) o settings)
  = foldl (fun current s =>
             match assignment s with
             | Some (k, value) =>
                 if bool_decide (k = key) then value else current
             | None => current
             end) (get_property key o) settings.
Proof.
  induction settings as [|s settings IH]; intros o; [done|].
  cbn [foldl]. rewrite IH. f_equal.
  destruct (assignment s) as [[k value]|]; [|done].
  case_bool_decide as Hk.
  - subst k. apply get_set_eq.
  - by apply get_set_ne.
Qed.

End ParseFacts.

(** X10. The argument loop of the legacy API: on a command line made of
    flags with their values, flags alone and tokens that are no flag,
    in any order, [options[key]] ends up with the value of the last
    setting for [key], and is [undefined] when there is none. A token
    that is no flag is passed over, and a token that follows a flag
    taking a value is that value whatever it is. *)
Theorem options_of_command_line settings key :
  Forall CommandLine.well_formed settings ->
  Legacy.get_property key
    (Legacy.parse_args (flat_map CommandLine.render settings) [])
  = CommandLine.value_for key settings.
Proof.
  intros Hs.
  rewrite <- (app_nil_r (flat_map _ _)).
  rewrite ParseFacts.parse_args_settings by done.
  cbn [Legacy.parse_args]. apply ParseFacts.get_assigned.
Qed.

(** ** The decoder of the legacy API's stdin *)

Module LenientFacts.
Import Encoding EncodingFacts Legacy.

(** Where the strict decoder succeeds, the lenient one gives the same. *)
Lemma replacement_agrees input : ∀ d cps,
  utf8_run d input = Some cps -> utf8_run_replacement d input = cps.
Proof.
  induction input as [|b rest IH]; intros d cps; cbn [utf8_run utf8_run_replacement].
  - destruct (bytes_needed d =? 0); congruence.
  - destruct (utf8_handler d b) as [d'|cp d'|]; [apply IH| |done].
    destruct (utf8_run d' rest) as [cps'|] eqn:Hrest; [|done].
    intros [= <-]. f_equal. by apply IH.
Qed.

Lemma handler_clean d b :
  clean d ->
  match utf8_handler d b with
  | Continue d' | CodePoint _ d' => clean d'
  | DecodeError => True
  end.
Proof.
  unfold clean. intros Hd. unfold utf8_handler.
  destruct (Z.eqb_spec (bytes_needed d) 0) as [H0|H0].
  - rewrite (Hd H0). cbn.
    repeat (match goal with
            | |- context [if ?c then _ else _] => destruct c
            end); cbn; done.
  - repeat (match goal with
            | |- context [if ?c then _ else _] => destruct c
            end); cbn; done.
Qed.

Lemma replacement_prefix a : ∀ d cps rest,
  clean d -> utf8_run d a = Some cps ->
  utf8_run_replacement d (a ++ rest)
  = cps ++ utf8_run_replacement decoder_init rest.
Proof.
  induction a as [|b a IH]; intros d cps rest Hd; cbn [utf8_run app].
  - destruct (Z.eqb_spec (bytes_needed d) 0) as [H0|H0]; [|done].
    intros [= <-]. by rewrite (Hd H0).
  - pose proof (handler_clean d b Hd) as Hd'.
    destruct rest as [|r rest'] eqn:Hrest.
    + rewrite app_nil_r. intros H.
      change (utf8_run d (b :: a) = Some cps) in H.
      apply replacement_agrees in H. rewrite H. cbn. by rewrite app_nil_r.
    + rewrite <- Hrest. cbn [utf8_run_replacement].
      destruct (utf8_handler d b) as [d'|cp d'|]; [by apply IH| |done].
      destruct (utf8_run d' a) as [cps'|] eqn:Ha; [|done].
      intros [= <-]. cbn [app]. f_equal. by apply IH.
Qed.

Lemma replacement_encode cps rest :
  Forall scalar_value cps ->
  utf8_run_replacement decoder_init (utf8_encode cps ++ rest)
  = cps ++ utf8_run_replacement decoder_init rest.
Proof.
  intros Hcps. apply replacement_prefix; [done|].
  by apply utf8_decode_encode.
Qed.

Ltac lenient_step :=
  rewrite handler_trail by (cbn; lia);
  cbn [lower_boundary upper_boundary bytes_seen bytes_needed code_point];
  rewrite in_range_true by (split_tests; zlia);
  first [ rewrite (proj2 (Z.eqb_eq _ _)) by lia
        | rewrite (proj2 (Z.eqb_neq _ _)) by lia ];
  cbn [utf8_run_replacement].

(** A sequence cut short at the end of the input is one U+FFFD. *)
Lemma replacement_truncated cp k :
  scalar_value cp -> (0 < k < length (utf8_encode_cp cp))%nat ->
  utf8_run_replacement decoder_init (take k (utf8_encode_cp cp)) = [0xFFFD].
Proof.
  intros [Hcp Hsur]. rewrite utf8_encode_cp_eq.
  destruct (Z.leb_spec cp 0x7F); [|destruct (Z.leb_spec cp 0x7FF);
    [|destruct (Z.leb_spec cp 0xFFFF)]]; cbn [length]; intros Hk;
    destruct k as [|[|[|[|k]]]]; try lia; cbn [take utf8_run_replacement];
    rewrite handler_lead.
  - rewrite (in_range_false 0 0x7F), (in_range_true 0xC2 0xDF) by zlia. done.
  - rewrite (in_range_false 0 0x7F), (in_range_false 0xC2 0xDF),
      (in_range_true 0xE0 0xEF) by zlia. done.
  - rewrite (in_range_false 0 0x7F), (in_range_false 0xC2 0xDF),
      (in_range_true 0xE0 0xEF) by zlia. lenient_step. done.
  - rewrite (in_range_false 0 0x7F), (in_range_false 0xC2 0xDF),
      (in_range_false 0xE0 0xEF), (in_range_true 0xF0 0xF4) by zlia. done.
  - rewrite (in_range_false 0 0x7F), (in_range_false 0xC2 0xDF),
      (in_range_false 0xE0 0xEF), (in_range_true 0xF0 0xF4) by zlia.
    lenient_step. done.
  - rewrite (in_range_false 0 0x7F), (in_range_false 0xC2 0xDF),
      (in_range_false 0xE0 0xEF), (in_range_true 0xF0 0xF4) by zlia.
    do 2 lenient_step. done.
Qed.

Lemma decode_agrees data text :
  TextDecoder_decode data = Some text ->
  TextDecoder_decode_replacement data = text.
Proof.
  unfold TextDecoder_decode, utf8_decode, TextDecoder_decode_replacement.
  destruct (utf8_run decoder_init data) as [cps|] eqn:Hrun; [|done].
  intros [= <-]. by rewrite (replacement_agrees _ _ _ Hrun).
Qed.

End LenientFacts.

(** X11. Where the strict decoder accepts the bytes, the decoder the
    legacy API uses for a Blob given as input returns the same text. *)
Theorem lenient_decode_agrees data text :
  Encoding.TextDecoder_decode data = Some text ->
  Legacy.TextDecoder_decode_replacement data = text.
Proof. apply LenientFacts.decode_agrees. Qed.

(** X12. Bytes that end inside a multi-byte sequence: the strict decoder
    throws, the decoder of the legacy API's input returns the text
    before the cut followed by one U+FFFD. *)
Theorem lenient_decode_truncated cps cp k :
  Forall Encoding.scalar_value cps -> Encoding.scalar_value cp ->
  (0 < k < length (Encoding.utf8_encode_cp cp))%nat ->
  let data := Encoding.utf8_encode cps ++ take k (Encoding.utf8_encode_cp cp) in
  Encoding.TextDecoder_decode data = None
  ∧ Legacy.TextDecoder_decode_replacement data
    = Encoding.to_jsstring (Encoding.strip_bom (cps ++ [0xFFFD])).
Proof.
  intros Hcps Hcp Hk data. split.
  - unfold Encoding.TextDecoder_decode. subst data.
    by rewrite EncodingFacts.utf8_decode_truncated.
  - unfold Legacy.TextDecoder_decode_replacement. subst data.
    rewrite LenientFacts.replacement_encode by done.
    by rewrite LenientFacts.replacement_truncated.
Qed.

(** ** [pandoc(args_str, inData, resources)] *)

Section LegacyApi.

Import Legacy.

Variable JSON_stringify : Options -> jsstring.
Variable JSON_parse : jsstring -> option json.
Variable wasm_convert : bytes -> Store -> completion Store.

Local Abbreviation post_run := (post_run JSON_stringify wasm_convert).
Local Abbreviation convert := (convert JSON_stringify JSON_parse wasm_convert).
Local Abbreviation pandoc :=
  (Legacy.pandoc JSON_stringify JSON_parse wasm_convert).





(** The loop that fills the [Map]: every Blob of [mediaFiles] is read
    and given to [convertData]. *)
Lemma add_media_loop (l : list (jsstring * jsvalue)) :
  NoDup l.*1 -> Forall (fun entry => ∃ d, entry.2 = VBlob (new_Blob d)) l ->
  ∀ acc, ∃ acc',
    for_each add_media l acc = Return acc'
    ∧ ∀ name,
        acc' !! name
        = match (list_to_map l : gmap jsstring jsvalue) !! name with
          | Some v => Some (convertData (default [] (value_bytes v)))
          | None => acc !! name
          end.
Proof.
  induction l as [|[k v] l IH]; intros Hnd Hl acc.
  - exists acc. split; [done|]. intros name. cbn [list_to_map foldr].
    by rewrite lookup_empty.
  - apply NoDup_cons in Hnd as [Hk Hnd].
    apply Forall_cons in Hl as [[d Hd] Hl]. cbn in Hd. subst v.
    cbn [for_each add_media arrayBuffer fst snd mbind completion_bind].
    cbn [blob_data new_Blob].
    destruct (IH Hnd Hl (<[k := convertData d]> acc)) as (acc' & Hrun & Hacc).
    exists acc'. split; [done|]. intros name. rewrite Hacc.
    rewrite list_to_map_cons.
    destruct (decide (k = name)) as [->|Hne].
    + rewrite (not_elem_of_list_to_map_1 _ name) by done.
      by rewrite !lookup_insert_eq.
    + by rewrite !lookup_insert_ne by done.
Qed.

(** [mediaFiles] of a result holds Blobs of store data. *)
Lemma mediaFiles_values options stdin files0 r :
  convert options stdin files0 = Return r ->
  Forall (fun entry => ∃ d, entry.2 = VBlob (new_Blob d))
    (map_to_list (mediaFiles r)).
Proof.
  intros Hr. destruct (convert_Return _ _ _ _ _ _ _ Hr) as (s & Hs & _).
  apply Forall_forall. intros [name v] Hin.
  apply elem_of_map_to_list in Hin.
  destruct (result_lookup _ _ _ _ _ _ _ _ name Hs Hr) as [_ Hm].
  rewrite Hm in Hin.
  destruct (fileSystem (store s) !! name ≫= new_blob s name) as [b|] eqn:Hb;
    [|done].
  apply taken_Some in Hb as (_ & d & _ & _ & ->).
  destruct (is_media s name); [|done]. injection Hin as <-. by exists d.
Qed.

(** The [Map] of a result. *)
Lemma media_map r :
  Forall (fun entry => ∃ d, entry.2 = VBlob (new_Blob d))
    (map_to_list (mediaFiles r)) ->
  ∃ media,
    for_each add_media (map_to_list (mediaFiles r)) ∅ = Return media
    ∧ ∀ name, media !! name
              = (fun v => convertData (default [] (value_bytes v)))
                <$> mediaFiles r !! name.
Proof.
  intros Hv.
  destruct (add_media_loop (map_to_list (mediaFiles r))
              (NoDup_fst_map_to_list _) Hv ∅) as (media & Hrun & Hmedia).
  exists media. split; [done|]. intros name. rewrite Hmedia.
  rewrite list_to_map_to_list.
  by destruct (mediaFiles r !! name).
Qed.


(** A call whose conversion returns, up to [out]. *)
Lemma pandoc_convert args_str inData resources files0 stdin result :
  for_each add_resource resources ∅ = Return files0 ->
  stdin_of inData = Return stdin ->
  convert (options_of args_str) stdin files0 = Return result ->
  ∃ media,
    (∀ name, media !! name
             = (fun v => convertData (default [] (value_bytes v)))
               <$> mediaFiles result !! name)
    ∧ pandoc args_str inData resources
      = (o ← out_of (options_of args_str) result;
         Return {| out := o; mediaFilesMap := media |}).
Proof.
  intros Hfiles Hstdin Hresult.
  destruct (media_map result (mediaFiles_values _ _ _ _ Hresult))
    as (media & Hrun & Hmedia).
  exists media. split; [done|].
  unfold Legacy.pandoc. cbv zeta. rewrite Hfiles. cbn [mbind completion_bind].
  rewrite Hstdin. cbn [mbind completion_bind].
  rewrite Hresult. cbn [mbind completion_bind].
  by rewrite Hrun.
Qed.


(** An empty string as [stdin] is no [stdin]. *)
Lemma convert_or_null options stdin files0 :
  convert options (or_null stdin) files0 = convert options stdin files0.
Proof.
  unfold convert, seed.
  assert (or_null (or_null stdin) = or_null stdin) as ->; [|done].
  destruct stdin as [[|c text]|]; done.
Qed.

(** [files] of a result under the declared output path. *)
Lemma output_lookup options stdin files0 s r name :
  post_run options stdin files0 = Return s ->
  convert options stdin files0 = Return r ->
  or_null (output_file options) = Some name ->
  files r !! name
  = match get_data (store s) name with
    | Some d =>
        if nonempty d
        then Some (VBlob {| blob_data := d;
                            blob_type :=
                              if bool_decide
                                   (or_null (extract_media options) = Some name)
                              then js "application/zip" else [] |})
        else files0 !! name
    | None => files0 !! name
    end.
Proof.
  intros Hs Hr Hout.
  destruct (post_run_known _ JSON_parse _ _ _ _ _ Hs) as (Hknown & _ & _).
  destruct (result_lookup _ _ _ _ _ _ _ _ name Hs Hr) as [-> _].
  rewrite taken_known
    by (rewrite Hknown; unfold KnownPathSet; rewrite Hout; set_solver).
  rewrite !collect_lookup. rewrite Hout.
  rewrite (bool_decide_eq_true_2 (Some name = Some name)) by done.
  destruct (get_data (store s) name) as [d|]; [|by case_bool_decide].
  destruct (nonempty d); by case_bool_decide.
Qed.


(** X14. A Blob given as input whose bytes are valid UTF-8 is the same
    call as one with the decoded text given as a string. *)
Theorem blob_input_as_text args_str data text resources :
  Encoding.TextDecoder_decode data = Some text ->
  pandoc args_str (Some (VBlob (new_Blob data))) resources
  = pandoc args_str (Some (VString text)) resources.
Proof.
  intros Hdata. unfold Legacy.pandoc. cbv zeta.
  destruct (for_each add_resource resources ∅) as [files0|e]; [|done].
  cbn [mbind completion_bind stdin_of toUint8Array blob_data new_Blob].
  rewrite (LenientFacts.decode_agrees _ _ Hdata).
  by rewrite convert_or_null.
Qed.


(** X16. With an output path on the command line and non-empty data
    under it in the store when the module has returned, a call whose
    conversion returns returns too, and [out] is what [convertData]
    makes of that data. *)
Theorem legacy_out_written args_str inData resources files0 stdin s result
    name d :
  for_each add_resource resources ∅ = Return files0 ->
  stdin_of inData = Return stdin ->
  post_run (options_of args_str) stdin files0 = Return s ->
  convert (options_of args_str) stdin files0 = Return result ->
  or_null (output_file (options_of args_str)) = Some name ->
  get_data (store s) name = Some d -> nonempty d = true ->
  ∃ r, pandoc args_str inData resources = Return r ∧ out r = convertData d.
Proof.
  intros Hfiles Hstdin Hs Hresult Hout Hd Hne.
  destruct (pandoc_convert _ _ _ _ _ _ Hfiles Hstdin Hresult)
    as (media & _ & ->).
  unfold out_of. rewrite Hout.
  rewrite (output_lookup _ _ _ _ _ _ Hs Hresult Hout), Hd, Hne.
  cbn. eauto.
Qed.


(** X18. With no output path on the command line, a call whose
    conversion returns returns too, and [out] is the text the standard
    output stream decodes to. *)
Theorem legacy_out_stdout args_str inData resources files0 stdin s result :
  for_each add_resource resources ∅ = Return files0 ->
  stdin_of inData = Return stdin ->
  post_run (options_of args_str) stdin files0 = Return s ->
  convert (options_of args_str) stdin files0 = Return result ->
  or_null (output_file (options_of args_str)) = None ->
  ∃ r text,
    pandoc args_str inData resources = Return r
    ∧ Encoding.TextDecoder_decode (default [] (data_of (store s) (out_file s)))
      = Some text
    ∧ out r = VString text.
Proof.
  intros Hfiles Hstdin Hs Hresult Hout.
  destruct (pandoc_convert _ _ _ _ _ _ Hfiles Hstdin Hresult)
    as (media & _ & ->).
  unfold out_of. rewrite Hout. cbn. eexists _, (stdout result).
  split; [done|]. split; [|done].
  rewrite (convert_post_run _ JSON_parse _ _ _ _ _ Hs) in Hresult.
  apply harvest_Return in Hresult as (_ & _ & _ & Hdecode & _).
  unfold decode_file in Hdecode.
  destruct (Encoding.TextDecoder_decode _) as [text|]; [|done].
  by injection Hdecode as ->.
Qed.

End LegacyApi.

(** ** [extractFromZip] *)

Module ZipFacts.
Import Zip.

Ltac zlia := Z.div_mod_to_equations; lia.

Lemma slice_drop buf offset k n :
  0 <= offset -> 0 <= k ->
  slice buf (offset + k) (offset + k + n)
  = take (Z.to_nat n) (drop (Z.to_nat k) (drop (Z.to_nat offset) buf)).
Proof.
  intros Ho Hk. unfold slice. rewrite drop_drop.
  f_equal; [f_equal; lia|f_equal; lia].
Qed.

Lemma slice_at buf offset n :
  0 <= offset ->
  slice buf offset (offset + n)
  = take (Z.to_nat n) (drop (Z.to_nat offset) buf).
Proof. intros Ho. unfold slice. f_equal. lia. Qed.

(** A slice that lies inside the buffer has all its bytes. *)
Lemma slice_length buf offset n :
  0 <= offset -> 0 <= n -> offset + n <= Z.of_nat (length buf) ->
  length (slice buf offset (offset + n)) = Z.to_nat n.
Proof.
  intros Ho Hn Hin. rewrite slice_at by done.
  rewrite length_take, length_drop. lia.
Qed.

Lemma slice_octets buf start stop :
  Encoding.octets buf -> Encoding.octets (slice buf start stop).
Proof.
  unfold Encoding.octets, slice. intros Hbuf.
  by apply Forall_take, Forall_drop.
Qed.

Lemma readUInt16LE_inside buf offset :
  Encoding.octets buf -> 0 <= offset ->
  offset + 2 <= Z.of_nat (length buf) ->
  ∃ n, readUInt16LE buf offset = Some n ∧ 0 <= n.
Proof.
  intros Hbuf Ho Hin. unfold readUInt16LE.
  pose proof (slice_length buf offset 2 Ho ltac:(lia) Hin) as Hlen.
  pose proof (slice_octets buf offset (offset + 2) Hbuf) as Hoct.
  destruct (slice buf offset (offset + 2)) as [|b0 [|b1 [|b2 l]]];
    try discriminate Hlen.
  apply Forall_cons in Hoct as [H0 Hoct]. apply Forall_cons in Hoct as [H1 _].
  eexists. split; [done|]. lia.
Qed.

Lemma readUInt32LE_inside buf offset :
  Encoding.octets buf -> 0 <= offset ->
  offset + 4 <= Z.of_nat (length buf) ->
  ∃ n, readUInt32LE buf offset = Some n ∧ 0 <= n.
Proof.
  intros Hbuf Ho Hin. unfold readUInt32LE.
  pose proof (slice_length buf offset 4 Ho ltac:(lia) Hin) as Hlen.
  pose proof (slice_octets buf offset (offset + 4) Hbuf) as Hoct.
  destruct (slice buf offset (offset + 4)) as [|b0 [|b1 [|b2 [|b3 [|b4 l]]]]];
    try discriminate Hlen.
  apply Forall_cons in Hoct as [H0 Hoct]. apply Forall_cons in Hoct as [H1 Hoct].
  apply Forall_cons in Hoct as [H2 Hoct]. apply Forall_cons in Hoct as [H3 _].
  eexists. split; [done|]. lia.
Qed.

Lemma extract_no_range_error inflateRawSync compressionMethod data :
  extract inflateRawSync compressionMethod data ≠ Thrown RangeError.
Proof.
  unfold extract. repeat case_match; discriminate.
Qed.

(** The loop ends, and its reads stay inside the buffer. *)
Lemma scan_returns toString_utf8 inflateRawSync buf filename :
  Encoding.octets buf ->
  ∀ turns offset,
    0 <= offset -> (0 < turns)%nat ->
    Z.of_nat (length buf) < Z.of_nat turns + offset ->
    ∃ o, scan toString_utf8 inflateRawSync turns buf filename offset = Some o
         ∧ o ≠ Thrown RangeError.
Proof.
  intros Hbuf.
  induction turns as [|turns IH]; intros offset Ho Hpos Hturns.
  - lia.
  - cbn [scan].
    destruct (Z.ltb_spec offset (Z.of_nat (length buf) - 30)) as [Hin|Hout];
      [|by eexists].
    case_bool_decide as Hsig; [|apply IH; lia].
    destruct (readUInt16LE_inside buf (offset + 26) Hbuf) as (nl & -> & Hnl);
      [lia..|].
    destruct (readUInt16LE_inside buf (offset + 28) Hbuf) as (el & -> & Hel);
      [lia..|].
    destruct (readUInt16LE_inside buf (offset + 8) Hbuf) as (cm & -> & Hcm);
      [lia..|].
    destruct (readUInt32LE_inside buf (offset + 18) Hbuf) as (cs & -> & Hcs);
      [lia..|].
    cbv zeta. destruct (selects filename _).
    + eexists. split; [done|]. apply extract_no_range_error.
    + apply IH; lia.
Qed.

(** *** Reading an entry *)

Lemma le16_read n rest :
  0 <= n < 2 ^ 16 ->
  match le16 n ++ rest with
  | b0 :: b1 :: _ => b0 + b1 * 2 ^ 8
  | _ => 0
  end = n.
Proof. intros Hn. cbn. zlia. Qed.

Lemma local_file_length e :
  length (local_file e)
  = (30 + length (name e) + length (extra e) + length (payload e))%nat.
Proof. unfold local_file. cbn. rewrite !length_app. lia. Qed.

Section Entry.

Variable toString_utf8 : bytes -> jsstring.
Variable inflateRawSync : bytes -> option bytes.

(** One turn of the loop at an entry. *)
Lemma scan_entry turns before e rest filename :
  well_formed e ->
  scan toString_utf8 inflateRawSync (S turns)
    (before ++ local_file e ++ rest) filename (Z.of_nat (length before))
  = if selects filename (toString_utf8 (name e))
    then Some (extract inflateRawSync (method e) (payload e))
    else scan toString_utf8 inflateRawSync turns
           (before ++ local_file e ++ rest) filename
           (Z.of_nat (length (before ++ local_file e))).
Proof.
  intros (Hm & Hn & He & Hp & Hname).
  set (buf := before ++ local_file e ++ rest).
  set (offset := Z.of_nat (length before)).
  assert (0 <= offset) as Ho by lia.
  assert (drop (Z.to_nat offset) buf = local_file e ++ rest) as Hdrop.
  { subst buf offset. by rewrite Nat2Z.id, drop_app_length. }
  assert (offset < Z.of_nat (length buf) - 30) as Hin.
  { subst buf offset. rewrite !length_app, local_file_length.
    destruct (name e); [done|]. cbn [length]. lia. }
  assert (Z.of_nat (length (before ++ local_file e))
          = offset + 30 + Z.of_nat (length (name e))
            + Z.of_nat (length (extra e)) + Z.of_nat (length (payload e)))
    as ->.
  { subst offset. rewrite length_app, local_file_length. lia. }
  cbn [scan]. rewrite (proj2 (Z.ltb_lt _ _) Hin).
  assert (slice buf offset (offset + 4) = signature) as ->.
  { rewrite slice_at, Hdrop by done. done. }
  rewrite bool_decide_eq_true_2 by done.
  unfold readUInt16LE, readUInt32LE.
  rewrite !slice_drop, !Hdrop by lia.
  change (Z.to_nat 26) with 26%nat. change (Z.to_nat 28) with 28%nat.
  change (Z.to_nat 8) with 8%nat. change (Z.to_nat 18) with 18%nat.
  change (Z.to_nat 2) with 2%nat. change (Z.to_nat 4) with 4%nat.
  unfold local_file, signature, le16, le32. cbn [app drop take].
  replace (Z.of_nat (length (name e)) mod 256
           + Z.of_nat (length (name e)) / 256 * 2 ^ 8)
    with (Z.of_nat (length (name e))) by zlia.
  replace (Z.of_nat (length (extra e)) mod 256
           + Z.of_nat (length (extra e)) / 256 * 2 ^ 8)
    with (Z.of_nat (length (extra e))) by zlia.
  replace (method e mod 256 + method e / 256 * 2 ^ 8) with (method e) by zlia.
  replace (Z.of_nat (length (payload e)) mod 256
           + Z.of_nat (length (payload e)) / 256 mod 256 * 2 ^ 8
           + Z.of_nat (length (payload e)) / 65536 mod 256 * 2 ^ 16
           + Z.of_nat (length (payload e)) / 16777216 * 2 ^ 24)
    with (Z.of_nat (length (payload e))) by zlia.
  cbv zeta.
  assert (slice buf (offset + 30) (offset + 30 + Z.of_nat (length (name e)))
          = name e) as ->.
  { rewrite slice_drop, Hdrop by lia. change (Z.to_nat 30) with 30%nat.
    unfold local_file, signature, le16, le32. cbn [app drop].
    by rewrite drop_0, Nat2Z.id, <- !app_assoc, take_app_length. }
  destruct (selects filename (toString_utf8 (name e))).
  - do 2 f_equal.
    replace (offset + 30 + Z.of_nat (length (name e))
             + Z.of_nat (length (extra e)))
      with (offset + Z.of_nat (30 + length (name e) + length (extra e)))
      by lia.
    rewrite slice_drop, Hdrop by lia. rewrite !Nat2Z.id.
    unfold local_file, signature, le16, le32.
    rewrite <- !Nat.add_assoc. cbn [app Nat.add drop].
    rewrite <- !app_assoc.
    rewrite <- drop_drop, drop_app_length, drop_app_length.
    by rewrite take_app_length.
  - done.
Qed.

(** Entries that are not selected are passed over. *)
Lemma scan_entries entries : ∀ turns before rest filename,
  Forall well_formed entries ->
  Forall (fun e => selects filename (toString_utf8 (name e)) = false)
    entries ->
  scan toString_utf8 inflateRawSync (length entries + turns)
    (before ++ flat_map local_file entries ++ rest) filename
    (Z.of_nat (length before))
  = scan toString_utf8 inflateRawSync turns
      (before ++ flat_map local_file entries ++ rest) filename
      (Z.of_nat (length (before ++ flat_map local_file entries))).
Proof.
  induction entries as [|e entries IH]; intros turns before rest filename Hwf Hno.
  - cbn. by rewrite app_nil_r.
  - apply Forall_cons in Hwf as [He Hwf]. apply Forall_cons in Hno as [Hne Hno].
    cbn [flat_map length Nat.add]. rewrite <- !app_assoc.
    rewrite scan_entry, Hne by done.
    rewrite (app_assoc before (local_file e)).
    rewrite IH by done. by rewrite <- !app_assoc.
Qed.

Lemma entries_length entries :
  Forall well_formed entries ->
  (length entries <= length (flat_map local_file entries))%nat.
Proof.
  induction 1 as [|e entries He _ IH]; [done|].
  cbn [flat_map length]. rewrite length_app, local_file_length. lia.
Qed.

(** Bytes without a signature are passed over one by one. *)
Lemma scan_no_signature rest filename : ∀ turns before,
  no_signature rest ->
  (length rest < turns)%nat ->
  scan toString_utf8 inflateRawSync turns (before ++ rest) filename
    (Z.of_nat (length before))
  = Some (Thrown (NotFound filename)).
Proof.
  induction rest as [|b rest IH]; intros turns before Hno Hturns.
  - destruct turns as [|turns]; [cbn in Hturns; lia|]. cbn [scan].
    rewrite app_nil_r. by rewrite (proj2 (Z.ltb_ge _ _)) by lia.
  - destruct turns as [|turns]; [cbn in Hturns; lia|]. cbn [scan].
    destruct (Z.ltb_spec (Z.of_nat (length before))
                (Z.of_nat (length (before ++ b :: rest)) - 30)); [|done].
    rewrite bool_decide_eq_false_2.
    + replace (before ++ b :: rest) with ((before ++ [b]) ++ rest)
        by by rewrite <- app_assoc.
      replace (Z.of_nat (length before) + 1)
        with (Z.of_nat (length (before ++ [b])))
        by (rewrite length_app; cbn; lia).
      apply IH; [|cbn in Hturns; lia].
      intros i Hi. apply (Hno (S i)). cbn. lia.
    + rewrite slice_at by lia. rewrite Nat2Z.id, drop_app_length.
      apply (Hno 0%nat). cbn. lia.
Qed.

End Entry.

End ZipFacts.

(** X19. [extractFromZip] ends on every buffer of octets, by returning
    or by throwing one of its errors, and none of its reads is past the
    end of the buffer. *)
Theorem extractFromZip_ends toString_utf8 inflateRawSync zipBuffer filename :
  Encoding.octets zipBuffer ->
  ∃ o, Zip.extractFromZip toString_utf8 inflateRawSync zipBuffer filename
       = Some o
       ∧ o ≠ Zip.Thrown Zip.RangeError.
Proof.
  intros Hbuf. apply ZipFacts.scan_returns; [done|lia..].
Qed.

(** X20. In an archive that begins with local file entries, the first
    entry whose name is selected is the one extracted, whatever follows
    it: its bytes as they are when it is stored, what
    [zlib.inflateRawSync] makes of them when it is deflated, and the
    unsupported-method error otherwise. *)
Theorem first_selected_entry toString_utf8 inflateRawSync before e rest
    filename :
  Forall Zip.well_formed before -> Zip.well_formed e ->
  Forall (fun e' => Zip.selects filename (toString_utf8 (Zip.name e')) = false)
    before ->
  Zip.selects filename (toString_utf8 (Zip.name e)) = true ->
  Zip.extractFromZip toString_utf8 inflateRawSync
    (flat_map Zip.local_file before ++ Zip.local_file e ++ rest) filename
  = Some (Zip.extract inflateRawSync (Zip.method e) (Zip.payload e)).
Proof.
  intros Hbefore He Hno Hsel. unfold Zip.extractFromZip.
  pose proof (ZipFacts.entries_length _ Hbefore) as Hlen.
  set (buf := flat_map Zip.local_file before ++ Zip.local_file e ++ rest).
  assert (∃ turns, S (length buf) = (length before + S turns)%nat)
    as [turns ->].
  { exists (length buf - length before)%nat. subst buf.
    rewrite length_app. lia. }
  subst buf.
  pose proof (ZipFacts.scan_entries toString_utf8 inflateRawSync before
                (S turns) [] (Zip.local_file e ++ rest) filename Hbefore Hno)
    as Hskip.
  cbn [app length] in Hskip. change (Z.of_nat 0) with 0 in Hskip.
  rewrite Hskip.
  rewrite (ZipFacts.scan_entry toString_utf8 inflateRawSync turns
             (flat_map Zip.local_file before) e rest filename He).
  by rewrite Hsel.
Qed.

(** X21. An archive of local file entries none of which is selected,
    followed by bytes that hold no local file header signature, makes
    [extractFromZip] throw its not-found error. *)
Theorem no_entry_selected toString_utf8 inflateRawSync entries rest filename :
  Forall Zip.well_formed entries ->
  Forall (fun e => Zip.selects filename (toString_utf8 (Zip.name e)) = false)
    entries ->
  Zip.no_signature rest ->
  Zip.extractFromZip toString_utf8 inflateRawSync
    (flat_map Zip.local_file entries ++ rest) filename
  = Some (Zip.Thrown (Zip.NotFound filename)).
Proof.
  intros Hwf Hno Hrest. unfold Zip.extractFromZip.
  pose proof (ZipFacts.entries_length _ Hwf) as Hlen.
  set (buf := flat_map Zip.local_file entries ++ rest).
  assert (∃ turns, S (length buf) = (length entries + turns)%nat
                   ∧ (length rest < turns)%nat) as (turns & -> & Hturns).
  { exists (S (length buf) - length entries)%nat. subst buf.
    rewrite length_app. lia. }
  subst buf.
  pose proof (ZipFacts.scan_entries toString_utf8 inflateRawSync entries
                turns [] rest filename Hwf Hno) as Hskip.
  cbn [app length] in Hskip. change (Z.of_nat 0) with 0 in Hskip.
  rewrite Hskip.
  by apply ZipFacts.scan_no_signature.
Qed.

(** ** Instances of the further statements *)

(** The directory scenario: the store the module is invoked on, and
    what it reads under [doc.md]. *)
Lemma seeded_store_witness :
  view (store Scenario.extract_seeded)
  = seeded_view Scenario.extract_options None Scenario.extract_files
  ∧ get_data (store Scenario.extract_seeded) (js "doc.md")
    = seeded_view Scenario.extract_options None Scenario.extract_files
        !! js "doc.md" ≫= inode_data.
Proof.
  destruct (seeded_store Scenario.extract_options None Scenario.extract_files
              Scenario.extract_seeded) as [Hview Hdata]; [by_compute|].
  split; [exact Hview|apply Hdata].
Defined.

(** The directory scenario: [media] is in the store and not known. *)
Lemma seeded_paths_witness :
  dom (fileSystem (store Scenario.extract_seeded))
  = KnownPathSet Scenario.extract_options Scenario.extract_files
    ∪ match or_null (extract_media Scenario.extract_options) with
      | Some path => {[ path ]}
      | None => ∅
      end.
Proof.
  apply (seeded_paths Scenario.extract_options None Scenario.extract_files
           Scenario.extract_seeded).
  by_compute.
Defined.



(** A module that writes the byte 0xFF to [stdout]. *)
Lemma malformed_stream_fails_witness :
  Scenario.run Examples.broken_module Scenario.no_options None ∅
  = Throw TypeError.
Proof.
  apply (malformed_stream_fails Scenario.stringify Scenario.parse
           Examples.broken_module Scenario.no_options None ∅
           Examples.broken_session); [by_compute|].
  right. left.
  assert (default [] (data_of (store Examples.broken_session)
                        (out_file Examples.broken_session)) = [0xFF])
    as -> by by_compute.
  intros (cps & Hcps & Heq).
  pose proof (EncodingFacts.utf8_decode_encode cps Hcps) as Hdecode.
  rewrite <- Heq in Hdecode. discriminate Hdecode.
Defined.

(** The sample text, ten bytes long, in a region of twelve. *)
Lemma request_written_whole_witness :
  Marshal.write_request Scenario.sample_text Examples.memory
  = Encoding.TextEncoder_encode Scenario.sample_text
    ++ drop (length (Encoding.TextEncoder_encode Scenario.sample_text))
         Examples.memory
  ∧ Marshal.read
      (Marshal.encodeInto Scenario.sample_text
         (take (length (Encoding.TextEncoder_encode Scenario.sample_text))
            Examples.memory))
    = Z.of_nat (length Scenario.sample_text)
  ∧ Marshal.written
      (Marshal.encodeInto Scenario.sample_text
         (take (length (Encoding.TextEncoder_encode Scenario.sample_text))
            Examples.memory))
    = Z.of_nat (length (Encoding.TextEncoder_encode Scenario.sample_text)).
Proof.
  apply (request_written_whole Scenario.sample_text Examples.memory).
  - repeat constructor; cbn; lia.
  - vm_compute. lia.
Defined.

(** The argument [-H64m]. *)
Lemma ascii_arg_is_c_string_witness :
  Marshal.write_arg (js "-H64m") Examples.memory
  = js "-H64m" ++ 0 :: drop (S (length (js "-H64m"))) Examples.memory.
Proof.
  apply (ascii_arg_is_c_string (js "-H64m") Examples.memory).
  - by_compute.
  - vm_compute. lia.
Defined.


(** Spaces, a tab, a no-break space and a line feed. *)
Lemma tokens_read_back_witness :
  Legacy.split_whitespace (Legacy.trim Examples.spaced_line)
  = js "-f" :: Examples.more_tokens.*2.
Proof.
  apply (tokens_read_back [0x20; 0x20] (js "-f") Examples.more_tokens [0xA]).
  - by repeat constructor.
  - by repeat constructor.
  - split; [discriminate|]. vm_compute. by repeat constructor.
  - vm_compute. repeat constructor; discriminate.
Defined.

(** The later of two outputs is the one kept. *)
Lemma options_of_command_line_witness :
  Legacy.get_property (js "output-file")
    (Legacy.parse_args (flat_map CommandLine.render Examples.settings) [])
  = CommandLine.value_for (js "output-file") Examples.settings.
Proof.
  apply (options_of_command_line Examples.settings (js "output-file")).
  repeat constructor. by_compute.
Defined.

(** The sample text. *)
Lemma lenient_decode_agrees_witness :
  Legacy.TextDecoder_decode_replacement
    (Encoding.TextEncoder_encode Scenario.sample_text)
  = Scenario.sample_text.
Proof.
  apply (lenient_decode_agrees
           (Encoding.TextEncoder_encode Scenario.sample_text)
           Scenario.sample_text).
  by_compute.
Defined.

(** "h" and the first two bytes of the euro sign. *)
Lemma lenient_decode_truncated_witness :
  Encoding.TextDecoder_decode
    (Encoding.utf8_encode [0x68] ++ take 2 (Encoding.utf8_encode_cp 0x20AC))
  = None
  ∧ Legacy.TextDecoder_decode_replacement
      (Encoding.utf8_encode [0x68] ++ take 2 (Encoding.utf8_encode_cp 0x20AC))
    = Encoding.to_jsstring (Encoding.strip_bom ([0x68] ++ [0xFFFD])).
Proof.
  apply (lenient_decode_truncated [0x68] 0x20AC 2).
  - repeat constructor; lia.
  - split; lia.
  - vm_compute. lia.
Defined.


(** The sample text as a Blob. *)
Lemma blob_input_as_text_witness :
  Examples.legacy Scenario.stdout_module (js "-f markdown")
    (Some (VBlob (new_Blob (Encoding.TextEncoder_encode Scenario.sample_text))))
    []
  = Examples.legacy Scenario.stdout_module (js "-f markdown")
      (Some (VString Scenario.sample_text)) [].
Proof.
  apply (blob_input_as_text Scenario.stringify Scenario.parse
           Scenario.stdout_module).
  by_compute.
Defined.


(** The output scenario through the legacy call. *)
Lemma legacy_out_written_witness :
  ∃ r, Examples.legacy Scenario.output_module Examples.output_line
         (Some (VString (js "hi"))) [] = Return r
       ∧ Legacy.out r = convertData (js "hi").
Proof.
  apply (legacy_out_written Scenario.stringify Scenario.parse
           Scenario.output_module Examples.output_line
           (Some (VString (js "hi"))) [] ∅ (Some (js "hi"))
           Examples.output_session Examples.output_result (js "out.html"));
    by_compute.
Defined.


(** Conversion to standard output through the legacy call. *)
Lemma legacy_out_stdout_witness :
  ∃ r text,
    Examples.legacy Scenario.stdout_module Examples.plain_line
      (Some (VString (js "hi"))) [] = Return r
    ∧ Encoding.TextDecoder_decode
        (default [] (data_of (store Examples.plain_session)
                       (out_file Examples.plain_session)))
      = Some text
    ∧ Legacy.out r = VString text.
Proof.
  apply (legacy_out_stdout Scenario.stringify Scenario.parse
           Scenario.stdout_module Examples.plain_line
           (Some (VString (js "hi"))) [] ∅ (Some (js "hi"))
           Examples.plain_session Examples.plain_result);
    by_compute.
Defined.

(** A buffer that ends inside a header. *)
Lemma extractFromZip_ends_witness :
  ∃ o, Zip.extractFromZip Examples.toString_utf8 Examples.inflateRawSync
         (take 40 (Zip.local_file Examples.wasm)) (js "pandoc.wasm")
       = Some o
       ∧ o ≠ Zip.Thrown Zip.RangeError.
Proof.
  apply (extractFromZip_ends Examples.toString_utf8 Examples.inflateRawSync).
  unfold Encoding.octets. by_compute.
Defined.

(** [pandoc.wasm] is found under [bin/], after [README]. *)
Lemma first_selected_entry_witness :
  Zip.extractFromZip Examples.toString_utf8 Examples.inflateRawSync
    (flat_map Zip.local_file [Examples.readme]
     ++ Zip.local_file Examples.wasm ++ Examples.central_directory)
    (js "pandoc.wasm")
  = Some (Zip.extract Examples.inflateRawSync (Zip.method Examples.wasm)
            (Zip.payload Examples.wasm)).
Proof.
  apply (first_selected_entry Examples.toString_utf8 Examples.inflateRawSync
           [Examples.readme] Examples.wasm Examples.central_directory
           (js "pandoc.wasm")).
  - repeat constructor; try (vm_compute; congruence); discriminate.
  - repeat split; try (vm_compute; congruence); discriminate.
  - repeat constructor.
  - by_compute.
Defined.

(** An archive that holds [README] only. *)
Lemma no_entry_selected_witness :
  Zip.extractFromZip Examples.toString_utf8 Examples.inflateRawSync
    (flat_map Zip.local_file [Examples.readme] ++ Examples.central_directory)
    (js "pandoc.wasm")
  = Some (Zip.Thrown (Zip.NotFound (js "pandoc.wasm"))).
Proof.
  apply (no_entry_selected Examples.toString_utf8 Examples.inflateRawSync
           [Examples.readme] Examples.central_directory (js "pandoc.wasm")).
  - repeat constructor; try (vm_compute; congruence); discriminate.
  - repeat constructor.
  - intros i Hi. do 7 (destruct i as [|i]; [discriminate|]).
    cbn in Hi. lia.
Defined.
